(** * ecr-cleaner: retention clean-up of a container registry

    A shallow embedding of [main.go] and the properties of its retention
    pipeline: partition by tag, regular-expression filter, sort by push
    time, selection of what exceeds the keep-count, deletion in batches.

    Conventions of the embedding.
    - A Go slice is a list holding the elements below its length.  A slice
      expression whose bounds leave [0 .. len] is reported as an abort
      ([SliceBounds]): Go panics when the bound exceeds the capacity and
      otherwise exposes the backing array past the length, and the capacity
      left by [append] is not fixed by the language.
    - Go's [int] is the 64-bit two's-complement integer; the subtraction on
      the keep-count, the one place where an input decides whether it
      overflows, is written with its wrap-around.
    - [*string] image digests are addresses: Go's [==] and [!=] on them
      compare addresses, not the strings they point to.  The strings live
      in a heap.  Image records, tags and push times are only read by the
      program and are modelled by value.
    - [log.Fatal] and a run-time panic end the process; they are the two
      ways a computation stops without a result.  Log lines that do not end
      the process are not modelled.
    - The packages [regexp] and [sort] and the registry client are
      collaborators of the program: they are variables of the development,
      with the contract their documentation gives where a proof needs it. *)

From Stdlib Require Import ZArith Lia Ascii.
From stdpp Require Import prelude strings gmap sorting.

Local Open Scope Z_scope.

(** ** Go integers *)

Module GoInt.

Definition min_int : Z := - 2 ^ 63.
Definition max_int : Z := 2 ^ 63 - 1.

(** Reduction of a mathematical integer to the 64-bit signed range. *)
Definition wrap (z : Z) : Z := (z + 2 ^ 63) mod 2 ^ 64 - 2 ^ 63.

Definition sub (a b : Z) : Z := wrap (a - b).

Definition in_range (z : Z) : Prop := min_int ≤ z ≤ max_int.

End GoInt.

(** ** Package [strings] *)

Module strings.

(** [strings.HasPrefix s prefix]. *)
Fixpoint HasPrefix (s prefix : string) : bool :=
  match prefix, s with
  | EmptyString, _ => true
  | String c prefix', String d s' => Ascii.eqb c d && HasPrefix s' prefix'
  | String _ _, EmptyString => false
  end.

(** [strings.Contains s substr]: [substr] occurs within [s]. *)
Fixpoint Contains (s substr : string) : bool :=
  HasPrefix s substr ||
  match s with
  | EmptyString => false
  | String _ s' => Contains s' substr
  end.

Definition lower (c : ascii) : ascii :=
  let n := N_of_ascii c in
  if ((65 <=? n) && (n <=? 90))%N then ascii_of_N (n + 32) else c.

(** [strings.ToLower], on the bytes of an ASCII string: the letters [A-Z]
    are mapped to [a-z] and every other byte is kept. *)
Fixpoint ToLower (s : string) : string :=
  match s with
  | EmptyString => EmptyString
  | String c s' => String (lower c) (ToLower s')
  end.

End strings.

(** ** Results of computations that can end the process *)

Inductive Abort : Type :=
| LogFatal (msg : string)            (* log.Fatal, log.Fatalf: exit status 1 *)
| SliceBounds (lo hi len : Z)        (* slice bounds out of range *)
| OutOfFuel.                         (* a loop of the model was cut short *)

Inductive Res (A : Type) : Type :=
| Ok (a : A)
| Stop (why : Abort).
Arguments Ok {A} a.
Arguments Stop {A} why.

Definition res_bind {A B} (r : Res A) (k : A → Res B) : Res B :=
  match r with
  | Ok a => k a
  | Stop why => Stop why
  end.

(** ** Slices *)

Definition len {A} (s : list A) : Z := Z.of_nat (length s).

(** The slice expression [s[lo:hi]]. *)
Definition slice {A} (s : list A) (lo hi : Z) : Res (list A) :=
  if (0 <=? lo) && (lo <=? hi) && (hi <=? len s)
  then Ok (take (Z.to_nat (hi - lo)) (drop (Z.to_nat lo) s))
  else Stop (SliceBounds lo hi (len s)).

(** The slice expression [s[lo:]], whose upper bound is [len(s)]. *)
Definition slice_from {A} (s : list A) (lo : Z) : Res (list A) :=
  slice s lo (len s).

(** ** Data model: [ecr.ImageDetail] and [ecr.ImageIdentifier] *)

(** Addresses of the strings that digests point to; [None] is [nil]. *)
Definition loc := positive.

(** [time.Time]; [Unix] gives the seconds since the epoch. *)
Record Time := { sec : Z; nsec : Z }.
Definition Unix (t : Time) : Z := sec t.

Record ImageDetail := {
  ImageDigest : option loc;
  ImageTags : list string;
  ImagePushedAt : Time
}.

Record ImageIdentifier := { Id_ImageDigest : option loc }.

Global Instance Time_eq_dec : EqDecision Time.
Proof. solve_decision. Defined.
Global Instance ImageDetail_eq_dec : EqDecision ImageDetail.
Proof. solve_decision. Defined.
Global Instance ImageIdentifier_eq_dec : EqDecision ImageIdentifier.
Proof. solve_decision. Defined.

(** The digest string of an image, read through the heap. *)
Definition digestOf (h : gmap loc string) (image : ImageDetail) : option string :=
  ImageDigest image ≫= λ l, h !! l.

(** Comparison of two [*string] values: equality of addresses. *)
Definition ptr_eqb (p q : option loc) : bool := bool_decide (p = q).

(** ** [separateHavingTag] *)

Fixpoint separateHavingTag_loop (images imagesWithoutTag imagesWithTag : list ImageDetail)
  : list ImageDetail * list ImageDetail :=
  match images with
  | [] => (imagesWithoutTag, imagesWithTag)
  | image :: rest =>
      if len (ImageTags image) =? 0
      then separateHavingTag_loop rest (imagesWithoutTag ++ [image]) imagesWithTag
      else separateHavingTag_loop rest imagesWithoutTag (imagesWithTag ++ [image])
  end.

Definition separateHavingTag (images : list ImageDetail)
  : list ImageDetail * list ImageDetail :=
  separateHavingTag_loop images [] [].

(** An image is untagged when its tag list is empty. *)
Definition untagged (image : ImageDetail) : Prop := ImageTags image = [].

Global Instance untagged_dec image : Decision (untagged image).
Proof. unfold untagged. apply _. Defined.

(** ** Package [regexp] *)

(** The package as the program uses it: [Compile] gives a compiled
    expression or an error, the method [MatchString] of a compiled
    expression tests a string. *)
Record RegexpPkg := {
  Regexp : Type;
  Compile : string → Regexp + string;
  Regexp_MatchString : Regexp → string → bool
}.

(** [regexp.MatchString pattern s]: compile [pattern], then match; the
    pair is Go's [(matched bool, err error)]. *)
Definition MatchString (R : RegexpPkg) (pattern s : string) : bool * option string :=
  match Compile R pattern with
  | inl re => (Regexp_MatchString R re s, None)
  | inr err => (false, Some err)
  end.

(** ** Package [sort] and the type [byTime] *)

(** [sort.Interface].  Indices are slice positions; [sort.Sort] only
    passes positions below [Len]. *)
Class Interface (T : Type) := {
  Len : T → nat;
  Less : T → nat → nat → bool;
  Swap : T → nat → nat → T
}.

(** [type byTime []*ecr.ImageDetail]. *)
Abbreviation byTime := (list ImageDetail).

Global Instance byTime_Interface : Interface byTime := {|
  Len p := length p;
  Less p i j :=
    match p !! i, p !! j with
    | Some a, Some b => Unix (ImagePushedAt a) <? Unix (ImagePushedAt b)
    | _, _ => false
    end;
  Swap p i j :=
    match p !! i, p !! j with
    | Some a, Some b => <[i:=b]> (<[j:=a]> p)
    | _, _ => p
    end
|}.

(** The type of [sort.Sort]: it rearranges the data it is given, through
    the three methods only. *)
Definition SortFn := ∀ T : Type, Interface T → T → T.

(** ** The registry client *)

(** The three operations of [*ecr.ECR] that the program calls, as
    transitions of the registry.  Errors are their messages; [None] in the
    place of a Go [error] is [nil]. *)
Record Client := {
  State : Type;
  DescribeRepositories : State → State * (list string + string);
  DescribeImages :
    string → option string → State → State * (list ImageDetail * option string + string);
  BatchDeleteImage : string → list ImageIdentifier → State → State * option string
}.

(** What the program asked of the registry, in the order it asked. *)
Inductive Call : Type :=
| CallDescribeRepositories
| CallDescribeImages (repositoryName : string) (nextToken : option string)
| CallBatchDeleteImage (repositoryName : string) (imageIds : list ImageIdentifier).

Record Event := { call : Call; failed : bool }.

Global Instance Call_eq_dec : EqDecision Call.
Proof. solve_decision. Defined.
Global Instance Event_eq_dec : EqDecision Event.
Proof. solve_decision. Defined.

Definition is_delete (e : Event) : bool :=
  match call e with
  | CallBatchDeleteImage _ _ => true
  | _ => false
  end.

(** ** The monad of the program: registry state, trace of calls, abort *)

Record World (C : Client) := { registry : State C; trace : list Event }.
Arguments registry {C} w.
Arguments trace {C} w.

Definition M (C : Client) (A : Type) : Type := World C → Res A * World C.

Definition retM {C A} (a : A) : M C A := λ w, (Ok a, w).

Definition bindM {C A B} (m : M C A) (k : A → M C B) : M C B :=
  λ w, match m w with
       | (Ok a, w') => k a w'
       | (Stop why, w') => (Stop why, w')
       end.

Definition stopM {C A} (why : Abort) : M C A := λ w, (Stop why, w).

Definition liftRes {C A} (r : Res A) : M C A := λ w, (r, w).

Notation "x <- m ;; k" := (bindM m (λ x, k))
  (at level 100, m at next level, right associativity).

Definition is_err {A} (r : A + string) : bool :=
  match r with inl _ => false | inr _ => true end.

(** The result is a Go error value, not [nil]. *)
Definition is_err_result (r : Res (option string)) : bool :=
  match r with Ok (Some _) => true | _ => false end.

Definition apiDescribeRepositories {C} : M C (list string + string) :=
  λ w, let '(st, r) := DescribeRepositories C (registry w) in
       (Ok r, {| registry := st;
                 trace := trace w ++ [{| call := CallDescribeRepositories;
                                         failed := is_err r |}] |}).

Definition apiDescribeImages {C} (repositoryName : string) (nextToken : option string)
  : M C (list ImageDetail * option string + string) :=
  λ w, let '(st, r) := DescribeImages C repositoryName nextToken (registry w) in
       (Ok r, {| registry := st;
                 trace := trace w ++ [{| call := CallDescribeImages repositoryName nextToken;
                                         failed := is_err r |}] |}).

Definition apiBatchDeleteImage {C} (repositoryName : string)
  (imageIds : list ImageIdentifier) : M C (option string) :=
  λ w, let '(st, err) := BatchDeleteImage C repositoryName imageIds (registry w) in
       (Ok err, {| registry := st;
                   trace := trace w ++ [{| call := CallBatchDeleteImage repositoryName imageIds;
                                           failed := bool_decide (is_Some err) |}] |}).

(** ** The program *)

(** [TagFiltering]: type for image tag filtering. *)
Record TagFiltering := { regExp : string; action : string }.

(** [filterTags], inner loop: the tags of one image are tried in turn; at
    the first match the image is appended to [imagesWithRETags] and the
    loop is left.  An error of [regexp.MatchString] is [log.Fatal]. *)
Fixpoint filterTags_tags (R : RegexpPkg) (tagRE : string) (image : ImageDetail)
  (tags : list string) (imagesWithRETags : list ImageDetail) : Res (list ImageDetail) :=
  match tags with
  | [] => Ok imagesWithRETags
  | tag :: rest =>
      let '(matched, err) := MatchString R tagRE tag in
      match err with
      | Some e => Stop (LogFatal e)
      | None =>
          if matched then Ok (imagesWithRETags ++ [image])
          else filterTags_tags R tagRE image rest imagesWithRETags
      end
  end.

(** The test after the inner loop: [imagesWithRETags] is empty or the
    digest of its last element is not (the address of) this image's. *)
Definition lastIsNot (imagesWithRETags : list ImageDetail) (image : ImageDetail) : bool :=
  (len imagesWithRETags =? 0) ||
  match imagesWithRETags !! (length imagesWithRETags - 1)%nat with
  | Some m => negb (ptr_eqb (ImageDigest m) (ImageDigest image))
  | None => true
  end.

Fixpoint filterTags_images (R : RegexpPkg) (tagRE : string) (images : list ImageDetail)
  (imagesWithRETags imgsWoRETags : list ImageDetail)
  : Res (list ImageDetail * list ImageDetail) :=
  match images with
  | [] => Ok (imagesWithRETags, imgsWoRETags)
  | image :: rest =>
      res_bind (filterTags_tags R tagRE image (ImageTags image) imagesWithRETags)
        (λ imagesWithRETags,
           let imgsWoRETags :=
             if lastIsNot imagesWithRETags image then imgsWoRETags ++ [image]
             else imgsWoRETags in
           filterTags_images R tagRE rest imagesWithRETags imgsWoRETags)
  end.

Definition filterTags (R : RegexpPkg) (images : list ImageDetail) (tagRE : string)
  : Res (list ImageDetail * list ImageDetail) :=
  if String.eqb tagRE ""
  then Ok (images, [])
  else filterTags_images R tagRE images [] [].

(** [imagesToRemove]. *)
Definition imagesToRemove (images : list ImageDetail) (amountToKeep : Z)
  : Res (list ImageDetail) :=
  if len images <? amountToKeep
  then Ok []
  else slice images 0 (GoInt.sub (len images) amountToKeep).

(** [buildImageIdentifier]. *)
Fixpoint buildImageIdentifier_loop (images : list ImageDetail)
  (imageIdentifiers : list ImageIdentifier) : list ImageIdentifier :=
  match images with
  | [] => imageIdentifiers
  | image :: rest =>
      buildImageIdentifier_loop rest
        (imageIdentifiers ++ [{| Id_ImageDigest := ImageDigest image |}])
  end.

Definition buildImageIdentifier (images : list ImageDetail) : list ImageIdentifier :=
  buildImageIdentifier_loop images [].

(** [fmt.Errorf] with the format of [deleteImages] and [cleanupImages]. *)
Definition errDeleting (repoName err : string) : string :=
  "deleting images in repo " +:+ repoName +:+ ": " +:+ err.

(** [deleteImages]. *)
Definition deleteImages {C} (repoName : string) (images : list ImageDetail)
  : M C (option string) :=
  let imageIdentifiers := buildImageIdentifier images in
  err <- apiBatchDeleteImage repoName imageIdentifiers ;;
  match err with
  | Some e => retM (Some (errDeleting repoName e))
  | None => retM None
  end.

(** [cleanupImages], lines 74-94: the list [deleteImageIDs]. *)
Definition deletionPlan (R : RegexpPkg) (sort_Sort : SortFn)
  (images : list ImageDetail) (amountToKeep : Z) (tagFilter : TagFiltering)
  : Res (list ImageDetail) :=
  let deleteImageIDs : list ImageDetail := [] in
  let '(imagesNoTag, imagesWithTag) := separateHavingTag images in
  res_bind (filterTags R imagesWithTag (regExp tagFilter))
    (λ '(imagesWithRETag, imagesWoRETag),
       let imagesWithTag : byTime :=
         if strings.Contains (action tagFilter) "delete"
         then imagesWithRETag else imagesWoRETag in
       let deleteImageIDs := deleteImageIDs ++ imagesNoTag in
       let imagesWithTag := sort_Sort byTime byTime_Interface imagesWithTag in
       res_bind (imagesToRemove imagesWithTag amountToKeep)
         (λ imagesWithTagToRemove,
            Ok (deleteImageIDs ++ imagesWithTagToRemove))).

(** [cleanupImages], the loop of lines 110-116.  It ends with the error to
    return ([inl]) or with the value of [i] after the loop ([inr]); the
    fuel bounds the number of iterations. *)
Fixpoint deleteLoop {C} (fuel : nat) (repoName : string)
  (deleteImageIDs : list ImageDetail) (i : Z) : M C (string + Z) :=
  if i <? len deleteImageIDs ÷ 100 then
    match fuel with
    | O => stopM OutOfFuel
    | S fuel' =>
        chunk <- liftRes (slice deleteImageIDs (i * 100) ((i + 1) * 100)) ;;
        err <- deleteImages repoName chunk ;;
        match err with
        | Some e => retM (inl (errDeleting repoName e))
        | None => deleteLoop fuel' repoName deleteImageIDs (i + 1)
        end
    end
  else retM (inr i).

(** [cleanupImages], lines 96-126: what is done with [deleteImageIDs]. *)
Definition submitPlan {C} (repoName : string) (deleteImageIDs : list ImageDetail)
  (dryRun : bool) : M C (option string) :=
  if dryRun then retM None
  else if len deleteImageIDs <=? 0 then retM None
  else
    r <- deleteLoop (length deleteImageIDs) repoName deleteImageIDs 0 ;;
    match r with
    | inl e => retM (Some e)
    | inr i =>
        chunk <- liftRes (slice_from deleteImageIDs (i * 100)) ;;
        err <- deleteImages repoName chunk ;;
        match err with
        | Some e => retM (Some (errDeleting repoName e))
        | None => retM None
        end
    end.

(** [cleanupImages]. *)
Definition cleanupImages {C} (R : RegexpPkg) (sort_Sort : SortFn)
  (repoName : string) (images : list ImageDetail) (dryRun : bool)
  (amountToKeep : Z) (tagFilter : TagFiltering) : M C (option string) :=
  deleteImageIDs <- liftRes (deletionPlan R sort_Sort images amountToKeep tagFilter) ;;
  submitPlan repoName deleteImageIDs dryRun.

(** [getImages]: the pages are fetched until one comes without a token.
    The result is Go's [([]*ecr.ImageDetail, error)]; the fuel bounds the
    number of pages. *)
Fixpoint getImages_loop {C} (fuel : nat) (repoName : string) (token : option string)
  (imageIDs : list ImageDetail) : M C (list ImageDetail * option string) :=
  match fuel with
  | O => stopM OutOfFuel
  | S fuel' =>
      resp <- apiDescribeImages repoName token ;;
      match resp with
      | inr err => retM ([], Some ("getting " +:+ repoName +:+ " image details: " +:+ err))
      | inl (imageDetails, nextToken) =>
          let imageIDs := imageIDs ++ imageDetails in
          match nextToken with
          | None => retM (imageIDs, None)
          | Some _ => getImages_loop fuel' repoName nextToken imageIDs
          end
      end
  end.

Definition getImages {C} (fuel : nat) (repoName : string)
  : M C (list ImageDetail * option string) :=
  getImages_loop fuel repoName None [].

(** [getAllRepoNames]. *)
Definition getAllRepoNames {C} : M C (list string * option string) :=
  resp <- apiDescribeRepositories ;;
  match resp with
  | inr err => retM ([], Some ("getting ecr repos: " +:+ err))
  | inl repositories => retM (repositories, None)
  end.

(** The command line after [flag.Parse]. *)
Record Flags := {
  keep : Z;
  aws_region : string;
  repo : string;
  dry_run : bool;
  tag_regexp : string;
  post_filter_action : string
}.

(** [main], the loop over the repositories. *)
Fixpoint main_repos {C} (R : RegexpPkg) (sort_Sort : SortFn) (fuel : nat)
  (repos : list string) (dryRun : bool) (amountToKeep : Z) (tagFilter : TagFiltering)
  : M C unit :=
  match repos with
  | [] => retM ()
  | repoName :: rest =>
      r <- getImages fuel repoName ;;
      match r with
      | (_, Some err) =>
          stopM (LogFatal ("Could not retrieve images for repo " +:+ repoName +:+ ": " +:+ err))
      | (images, None) =>
          err <- cleanupImages R sort_Sort repoName images dryRun amountToKeep tagFilter ;;
          match err with
          | Some e =>
              stopM (LogFatal ("Could not clean up images for repo " +:+ repoName +:+ ": " +:+ e))
          | None => main_repos R sort_Sort fuel rest dryRun amountToKeep tagFilter
          end
      end
  end.

(** [main].  [fuel] bounds the pages fetched per repository. *)
Definition main {C} (R : RegexpPkg) (sort_Sort : SortFn) (fuel : nat) (flags : Flags)
  : M C unit :=
  match Compile R (tag_regexp flags) with
  | inr err => stopM (LogFatal err)
  | inl _ =>
      let tagFilter := {| regExp := tag_regexp flags;
                          action := strings.ToLower (post_filter_action flags) |} in
      if negb (strings.Contains "deletesave" (action tagFilter))
      then stopM (LogFatal ("Incorrect value " +:+ action tagFilter
                            +:+ " . only delete and save are supported"))
      else
        repos <- (if String.eqb (repo flags) ""
                  then r <- getAllRepoNames ;;
                       match r with
                       | (_, Some err) => stopM (LogFatal err)
                       | (repos, None) => retM repos
                       end
                  else retM [repo flags]) ;;
        main_repos R sort_Sort fuel repos (dry_run flags) (keep flags) tagFilter
  end.

(** The exit status of the process: 0 when [main] returns, 1 after
    [log.Fatal], 2 after a panic. *)
Definition exitStatus {A} (r : Res A) : option Z :=
  match r with
  | Ok _ => Some 0
  | Stop (LogFatal _) => Some 1
  | Stop (SliceBounds _ _ _) => Some 2
  | Stop OutOfFuel => None
  end.

(** ** Vocabulary of the statements *)

(** A tag matches a pattern when [regexp.MatchString] says so without
    error. *)
Definition tagMatches (R : RegexpPkg) (tagRE tag : string) : Prop :=
  MatchString R tagRE tag = (true, None).

Definition hasMatchingTag (R : RegexpPkg) (tagRE : string) (image : ImageDetail) : Prop :=
  Exists (tagMatches R tagRE) (ImageTags image).

Global Instance tagMatches_dec R tagRE tag : Decision (tagMatches R tagRE tag).
Proof. unfold tagMatches. apply _. Defined.
Global Instance hasMatchingTag_dec R tagRE image : Decision (hasMatchingTag R tagRE image).
Proof. unfold hasMatchingTag. apply _. Defined.

(** What the two outputs of the filter are, for a non-empty pattern. *)
Definition filterTags_post (R : RegexpPkg) (tagRE : string)
  (images matched unmatched : list ImageDetail) : Prop :=
  matched = filter (hasMatchingTag R tagRE) images ∧
  unmatched = filter (λ x, ¬ hasMatchingTag R tagRE x) images ∧
  (∀ x, x ∈ matched → ∃ tag, tag ∈ ImageTags x ∧ tagMatches R tagRE tag) ∧
  (∀ x, x ∈ unmatched → ∀ tag, tag ∈ ImageTags x → ¬ tagMatches R tagRE tag) ∧
  matched `sublist_of` images ∧
  unmatched `sublist_of` images ∧
  (∀ x, x ∈ images →
        (x ∈ matched ∧ ¬ x ∈ unmatched) ∨ (¬ x ∈ matched ∧ x ∈ unmatched)).

(** The pattern compiles. *)
Definition compiles (R : RegexpPkg) (tagRE : string) : Prop :=
  ∃ re, Compile R tagRE = inl re.

(** [a] was pushed no later than [b], in the seconds that [Less] compares. *)
Definition pushedNoLater (a b : ImageDetail) : Prop :=
  Unix (ImagePushedAt a) ≤ Unix (ImagePushedAt b).

(** Ascending push times, in the seconds that [Less] compares. *)
Definition ascending (p : list ImageDetail) : Prop :=
  ∀ i j a b, (i < j)%nat → p !! i = Some a → p !! j = Some b →
             Unix (ImagePushedAt a) ≤ Unix (ImagePushedAt b).


(** What the documentation of [sort.Sort] promises for [byTime]: the
    result is a rearrangement of the data and no element is [Less] than
    one before it. *)
Definition sortContract (sort_Sort : SortFn) : Prop :=
  ∀ p : byTime,
    sort_Sort byTime byTime_Interface p ≡ₚ p ∧
    ∀ i j, (i < j < Len (sort_Sort byTime byTime_Interface p))%nat →
           Less (sort_Sort byTime byTime_Interface p) j i = false.

(** The chunks that [cleanupImages] hands to [deleteImages], in order:
    [len/100] chunks of 100, then what is left from position
    [100 * (len/100)] on. *)
Fixpoint fullChunks (n : nat) (plan : list ImageDetail) : list (list ImageDetail) :=
  match n with
  | O => []
  | S n' => take 100 plan :: fullChunks n' (drop 100 plan)
  end.

Definition batches (plan : list ImageDetail) : list (list ImageDetail) :=
  fullChunks (length plan / 100) plan ++ [drop (100 * (length plan / 100)) plan].

(** The identifiers sent for a chunk. *)
Definition idsOf (chunk : list ImageDetail) : list ImageIdentifier :=
  (λ image, {| Id_ImageDigest := ImageDigest image |}) <$> chunk.

(** The event of submitting one chunk. *)
Definition deleteEvent (repoName : string) (chunk : list ImageDetail) (fails : bool) : Event :=
  {| call := CallBatchDeleteImage repoName (idsOf chunk); failed := fails |}.

(** The registry after delete calls for the given chunks, one after the
    other, and nothing else. *)
Definition afterDeletes (C : Client) (repoName : string)
  (chunks : list (list ImageDetail)) (st : State C) : State C :=
  foldl (λ st chunk, (BatchDeleteImage C repoName (idsOf chunk) st).1) st chunks.

(** Every one of the delete calls for the given chunks, made one after the
    other from state [st], is answered without error. *)
Fixpoint allSucceed (C : Client) (repoName : string)
  (chunks : list (list ImageDetail)) (st : State C) : Prop :=
  match chunks with
  | [] => True
  | chunk :: rest =>
      (BatchDeleteImage C repoName (idsOf chunk) st).2 = None ∧
      allSucceed C repoName rest (BatchDeleteImage C repoName (idsOf chunk) st).1
  end.

(** The delete call for [chunk], made after those for [done_chunks], is
    answered with an error. *)
Definition failsAfter (C : Client) (repoName : string)
  (done_chunks : list (list ImageDetail)) (chunk : list ImageDetail) (st : State C) : bool :=
  bool_decide (is_Some (BatchDeleteImage C repoName (idsOf chunk)
                          (afterDeletes C repoName done_chunks st)).2).

(** The number of images in the call of an event. *)
Definition callSize (e : Event) : nat :=
  match call e with
  | CallBatchDeleteImage _ imageIds => length imageIds
  | _ => 0
  end.

(** ** Instances of the collaborators, for the examples *)

(** A sort that meets the contract of [sort.Sort] on any length: one pass
    that compares and swaps elements six apart, then insertion sort.  It
    is the routine of Go's [sort] package for ranges of at most twelve
    elements, as it was before pattern-defeating quicksort replaced it in
    Go 1.19. *)
Section ShortSort.
Context {T : Type} `{Interface T}.

(** [for j := i; j > a && data.Less(j, j-1); j-- { data.Swap(j, j-1) }] *)
Fixpoint insertionSort_inner (data : T) (a j : nat) : T :=
  match j with
  | O => data
  | S j' =>
      if (a <? j)%nat && Less data j j'
      then insertionSort_inner (Swap data j j') a j'
      else data
  end.

(** [for i := a + 1; i < b; i++ { ... }], with [n] iterations left. *)
Fixpoint insertionSort_outer (data : T) (a i n : nat) : T :=
  match n with
  | O => data
  | S n' => insertionSort_outer (insertionSort_inner data a i) a (S i) n'
  end.

Definition insertionSort (data : T) (a b : nat) : T :=
  insertionSort_outer data a (a + 1) (b - (a + 1)).

(** [for i := a + 6; i < b; i++ { if data.Less(i, i-6) { data.Swap(i, i-6) } }] *)
Fixpoint gapPass (data : T) (i n : nat) : T :=
  match n with
  | O => data
  | S n' =>
      gapPass (if Less data i (i - 6) then Swap data i (i - 6) else data) (S i) n'
  end.

Definition shortSort_range (data : T) (a b : nat) : T :=
  if (1 <? b - a)%nat
  then insertionSort (gapPass data (a + 6) (b - (a + 6))) a b
  else data.
End ShortSort.

Definition shortSort : SortFn := λ T I data, shortSort_range data 0 (Len data).

(** A fragment of [regexp]: a pattern without metacharacters matches the
    strings that contain it; the fragment rejects every other pattern. *)
Definition metachars : list ascii :=
  ["\"; "."; "+"; "*"; "?"; "("; ")"; "|"; "["; "]"; "{"; "}"; "^"; "$"]%char.

Fixpoint isLiteral (s : string) : bool :=
  match s with
  | EmptyString => true
  | String c s' => negb (bool_decide (c ∈ metachars)) && isLiteral s'
  end.

Definition literalRegexp : RegexpPkg := {|
  Regexp := string;
  Compile pattern :=
    if isLiteral pattern then inl pattern else inr "error parsing regexp";
  Regexp_MatchString re s := strings.Contains s re
|}.

(** A registry held in memory.  Every repository is listed in one page.
    [failAfter = Some n] makes the delete call after [n] successful ones
    fail. *)
Record Registry := {
  contents : list (string * list ImageDetail);
  failAfter : option nat
}.

Fixpoint lookupRepo (name : string) (cs : list (string * list ImageDetail))
  : option (list ImageDetail) :=
  match cs with
  | [] => None
  | (n, images) :: cs' => if String.eqb n name then Some images else lookupRepo name cs'
  end.

Definition removeImages (name : string) (ids : list ImageIdentifier)
  (cs : list (string * list ImageDetail)) : list (string * list ImageDetail) :=
  (λ '(n, images),
     if String.eqb n name
     then (n, filter (λ image, {| Id_ImageDigest := ImageDigest image |} ∉ ids) images)
     else (n, images)) <$> cs.

Definition memoryClient : Client := {|
  State := Registry;
  DescribeRepositories st := (st, inl (fst <$> contents st));
  DescribeImages name token st :=
    match lookupRepo name (contents st) with
    | Some images => (st, inl (images, None))
    | None => (st, inr "RepositoryNotFoundException")
    end;
  BatchDeleteImage name ids st :=
    match failAfter st with
    | Some O => (st, Some "ServerException")
    | Some (S n) =>
        ({| contents := removeImages name ids (contents st); failAfter := Some n |}, None)
    | None =>
        ({| contents := removeImages name ids (contents st); failAfter := None |}, None)
    end
|}.

Definition startWorld (st : Registry) : World memoryClient :=
  Build_World memoryClient st [].

(** An image for the examples: digest at address [d], tags, push time. *)
Definition image (d : positive) (tags : list string) (t : Z) : ImageDetail :=
  {| ImageDigest := Some d; ImageTags := tags;
     ImagePushedAt := {| sec := t; nsec := 0 |} |}.

(** A heap and three images with different digests. *)
Definition exampleHeap : gmap loc string :=
  {[ 1%positive := "sha256:aa"; 2%positive := "sha256:bb"; 3%positive := "sha256:cc" ]}.

Definition exampleImages : list ImageDetail :=
  [image 1 ["latest"; "v1"] 10; image 2 ["dev"] 20; image 3 ["v1.1"] 30].

(** Seven candidates, two of them pushed at second 5 and four at second 1. *)
Definition tiedImages : list ImageDetail :=
  [image 1 ["a"] 5; image 2 ["b"] 1; image 3 ["c"] 1; image 4 ["d"] 5;
   image 5 ["e"] 1; image 6 ["f"] 1; image 7 ["g"] 0].

(** [n] images without tags, with digests at the addresses [1 .. n]. *)
Definition untaggedImages (n : nat) : list ImageDetail :=
  (λ d, image (Pos.of_nat (S d)) [] (Z.of_nat d)) <$> seq 0 n.

(** [n] images with the tag [latest], digests at the addresses
    [1001 .. 1000+n], pushed at the seconds [0 .. n-1]. *)
Definition taggedImages (n : nat) : list ImageDetail :=
  (λ d, image (Pos.of_nat (1001 + d)) ["latest"] (Z.of_nat d)) <$> seq 0 n.

(** The default tag filter: no pattern, action [delete]. *)
Definition noFilter : TagFiltering := {| regExp := ""; action := "delete" |}.

(** A registry with the one repository [app]. *)
Definition registryOf (images : list ImageDetail) (failAfter : option nat) : Registry :=
  {| contents := [("app", images)]; failAfter := failAfter |}.

(** The command line [--repo app --keep k], every other flag at its
    default. *)
Definition flagsKeep (k : Z) : Flags :=
  {| keep := k; aws_region := "eu-central-1"; repo := "app"; dry_run := false;
     tag_regexp := ""; post_filter_action := "delete" |}.

(** The command line [--repo app --post-filter-action a]. *)
Definition flagsAction (a : string) : Flags :=
  {| keep := 100; aws_region := "eu-central-1"; repo := "app"; dry_run := false;
     tag_regexp := ""; post_filter_action := a |}.

(** The tag filter that [main] builds from the flags. *)
Definition tagFilterOf (flags : Flags) : TagFiltering :=
  {| regExp := tag_regexp flags;
     action := strings.ToLower (post_filter_action flags) |}.

(** ** Vocabulary of the further properties *)

(** The event of one [DescribeImages] call. *)
Definition describeEvent (repoName : string) (token : option string) (fails : bool) : Event :=
  {| call := CallDescribeImages repoName token; failed := fails |}.

(** The events of the [DescribeImages] calls made with the given tokens,
    of which only the last can have failed. *)
Fixpoint describeEvents (repoName : string) (tokens : list (option string))
  (fails : bool) : list Event :=
  match tokens with
  | [] => []
  | token :: rest =>
      match rest with
      | [] => [describeEvent repoName token fails]
      | _ :: _ => describeEvent repoName token false :: describeEvents repoName rest fails
      end
  end.

(** How the registry answers a run of [DescribeImages] calls for one
    repository that starts with [token] in state [st]: each answer but the
    last carries the token of the next call; the last one carries no token
    or is an error.  The run is recorded by the tokens sent, the pages
    received, the state left and the error, if any. *)
Inductive Pages (C : Client) (repoName : string)
  : option string → State C → list (option string) → list (list ImageDetail)
    → State C → option string → Prop :=
| Pages_last token st st' imageDetails :
    DescribeImages C repoName token st = (st', inl (imageDetails, None)) →
    Pages C repoName token st [token] [imageDetails] st' None
| Pages_error token st st' err :
    DescribeImages C repoName token st = (st', inr err) →
    Pages C repoName token st [token] [] st' (Some err)
| Pages_next token st st1 imageDetails next tokens pages st' err :
    DescribeImages C repoName token st = (st1, inl (imageDetails, Some next)) →
    Pages C repoName (Some next) st1 tokens pages st' err →
    Pages C repoName token st (token :: tokens) (imageDetails :: pages) st' err.

(** The identifiers carried by the call of an event. *)
Definition callIds (e : Event) : list ImageIdentifier :=
  match call e with
  | CallBatchDeleteImage _ imageIds => imageIds
  | _ => []
  end.

(** A registry that answers [DescribeImages] from a script, one entry per
    call: a page, followed by a token as long as the script goes on, or an
    error. *)
Definition scriptedClient : Client := {|
  State := list (list ImageDetail + string);
  DescribeRepositories st := (st, inl []);
  DescribeImages name token st :=
    match st with
    | [] => ([], inr "RepositoryNotFoundException")
    | inl imageDetails :: rest =>
        (rest, inl (imageDetails, match rest with [] => None | _ :: _ => Some "next" end))
    | inr err :: rest => (rest, inr err)
    end;
  BatchDeleteImage name ids st := (st, None)
|}.

(** A registry whose every page comes with a token. *)
Definition endlessClient : Client := {|
  State := unit;
  DescribeRepositories st := (st, inl []);
  DescribeImages name token st := (st, inl ([], Some "again"));
  BatchDeleteImage name ids st := (st, None)
|}.

(** * Properties *)

Local Arguments Nat.div : simpl never.
Local Arguments Nat.modulo : simpl never.
Local Arguments Nat.mul : simpl never.
Local Arguments Z.mul : simpl never.
Local Arguments Z.quot : simpl never.

(** ** Go integers *)

Lemma wrap_in_range z : GoInt.in_range z → GoInt.wrap z = z.
Proof.
  unfold GoInt.in_range, GoInt.min_int, GoInt.max_int, GoInt.wrap. intros Hz.
  rewrite Z.mod_small; lia.
Qed.


(** ** Slices *)

Lemma len_nonneg {A} (s : list A) : 0 ≤ len s.
Proof. unfold len. lia. Qed.

Lemma len_app {A} (s t : list A) : len (s ++ t) = len s + len t.
Proof. unfold len. rewrite length_app. lia. Qed.

Lemma slice_ok {A} (s : list A) lo hi :
  0 ≤ lo ≤ hi → hi ≤ len s →
  slice s lo hi = Ok (take (Z.to_nat (hi - lo)) (drop (Z.to_nat lo) s)).
Proof.
  intros [H1 H2] H3. unfold slice.
  destruct (Z.leb_spec 0 lo); [|lia].
  destruct (Z.leb_spec lo hi); [|lia].
  destruct (Z.leb_spec hi (len s)); [|lia]. done.
Qed.


(** ** The partitioner *)

Lemma separateHavingTag_loop_spec images u t :
  separateHavingTag_loop images u t
  = (u ++ filter untagged images, t ++ filter (λ x, ¬ untagged x) images).
Proof.
  revert u t. induction images as [|image rest IH]; intros u t; simpl.
  - by rewrite !app_nil_r.
  - unfold len. destruct (ImageTags image) as [|tag tags] eqn:Htags; simpl.
    + rewrite IH. rewrite filter_cons_True by done.
      rewrite filter_cons_False by (unfold untagged; intros Hn; by apply Hn).
      by rewrite <- app_assoc.
    + rewrite IH.
      rewrite filter_cons_False by (unfold untagged; by rewrite Htags).
      rewrite filter_cons_True by (unfold untagged; by rewrite Htags).
      by rewrite <- app_assoc.
Qed.

Lemma separateHavingTag_spec images :
  separateHavingTag images
  = (filter untagged images, filter (λ x, ¬ untagged x) images).
Proof. unfold separateHavingTag. by rewrite separateHavingTag_loop_spec. Qed.

(** C9.  [separateHavingTag] splits the images by the one test "the tag
    list is empty": the first output is the images without tags and the
    second the images with tags, each in the order of the input; no image
    is in both outputs, every image of the input is in exactly one of
    them, and together they are the input. *)
Theorem separateHavingTag_partition (images : list ImageDetail) :
  (separateHavingTag images).1 = filter untagged images ∧
  (separateHavingTag images).2 = filter (λ x, ¬ untagged x) images ∧
  (∀ x, ¬ (x ∈ (separateHavingTag images).1 ∧ x ∈ (separateHavingTag images).2)) ∧
  (∀ x, x ∈ images ↔
        x ∈ (separateHavingTag images).1 ∨ x ∈ (separateHavingTag images).2) ∧
  (∀ x, x ∈ (separateHavingTag images).1 ↔ x ∈ images ∧ ImageTags x = []) ∧
  (∀ x, x ∈ (separateHavingTag images).2 ↔ x ∈ images ∧ ImageTags x ≠ []) ∧
  (separateHavingTag images).1 `sublist_of` images ∧
  (separateHavingTag images).2 `sublist_of` images ∧
  (separateHavingTag images).1 ++ (separateHavingTag images).2 ≡ₚ images.
Proof.
  rewrite separateHavingTag_spec. simpl.
  split_and!; try done.
  - intros x [H1 H2]. apply list_elem_of_filter in H1, H2. tauto.
  - intros x. rewrite !list_elem_of_filter.
    destruct (decide (untagged x)); tauto.
  - intros x. rewrite list_elem_of_filter. unfold untagged. tauto.
  - intros x. rewrite list_elem_of_filter. unfold untagged. tauto.
  - apply sublist_filter.
  - apply sublist_filter.
  - apply filter_app_complement.
Qed.

(** ** The tag filter *)

Section TagFilter.
Variable R : RegexpPkg.
Variable tagRE : string.

Local Abbreviation matching := (hasMatchingTag R tagRE).

Lemma MatchString_true tag err :
  MatchString R tagRE tag = (true, err) → tagMatches R tagRE tag.
Proof.
  unfold tagMatches, MatchString.
  destruct (Compile R tagRE); [|done]. by intros [= -> _].
Qed.

(** The inner loop appends the image exactly when one of the tags
    matches. *)
Lemma filterTags_tags_spec image tags acc acc' :
  filterTags_tags R tagRE image tags acc = Ok acc' →
  acc' = if decide (Exists (tagMatches R tagRE) tags) then acc ++ [image] else acc.
Proof.
  induction tags as [|tag rest IH]; cbn [filterTags_tags].
  - intros [= <-]. rewrite decide_False; [done|]. by intros ?%Exists_nil.
  - destruct (MatchString R tagRE tag) as [matched err] eqn:HM.
    destruct err as [e|]; [done|].
    destruct matched.
    + intros [= <-]. rewrite decide_True; [done|].
      apply Exists_cons_hd. by eapply MatchString_true.
    + intros Hrest. rewrite (IH Hrest).
      assert (¬ tagMatches R tagRE tag) as Hno
        by (unfold tagMatches; rewrite HM; congruence).
      destruct (decide (Exists (tagMatches R tagRE) rest)) as [Hex|Hex].
      * rewrite decide_True; [done|]. by apply Exists_cons_tl.
      * rewrite decide_False; [done|]. rewrite Exists_cons. tauto.
Qed.

Lemma filterTags_tags_total image tags acc :
  compiles R tagRE → ∃ acc', filterTags_tags R tagRE image tags acc = Ok acc'.
Proof.
  intros [re Hre]. induction tags as [|tag rest IH]; simpl; [eauto|].
  unfold MatchString. rewrite Hre.
  destruct (Regexp_MatchString R re tag); eauto.
Qed.

Lemma lastIsNot_snoc acc image : lastIsNot (acc ++ [image]) image = false.
Proof.
  unfold lastIsNot.
  assert ((len (acc ++ [image]) =? 0) = false) as ->.
  { apply Z.eqb_neq. rewrite len_app. pose proof (len_nonneg acc).
    unfold len at 2. simpl length. lia. }
  rewrite length_app. simpl length.
  rewrite (list_lookup_middle acc [] image) by lia. simpl.
  unfold ptr_eqb. by rewrite bool_decide_eq_true_2.
Qed.

Lemma lastIsNot_fresh acc image :
  (∀ m, m ∈ acc → ImageDigest m ≠ ImageDigest image) → lastIsNot acc image = true.
Proof.
  intros Hfresh. unfold lastIsNot.
  destruct (acc !! (length acc - 1)%nat) as [m|] eqn:Hm; [|by rewrite orb_true_r].
  unfold ptr_eqb. rewrite bool_decide_eq_false_2; [by rewrite orb_true_r|].
  apply Hfresh. by eapply list_elem_of_lookup_2.
Qed.

(** With digests at pairwise different addresses, and different from
    those already in [imagesWithRETags], the outer loop appends the
    images that have a matching tag to the first list and all others to
    the second. *)
Lemma filterTags_images_spec images acc wo m u :
  NoDup (ImageDigest <$> images) →
  (∀ a x, a ∈ acc → x ∈ images → ImageDigest a ≠ ImageDigest x) →
  filterTags_images R tagRE images acc wo = Ok (m, u) →
  m = acc ++ filter matching images ∧
  u = wo ++ filter (λ x, ¬ matching x) images.
Proof.
  revert acc wo. induction images as [|image rest IH]; intros acc wo Hnd Hfresh; simpl.
  - intros [= <- <-]. by rewrite !app_nil_r.
  - rewrite fmap_cons in Hnd. apply NoDup_cons in Hnd as [Hnotin Hnd].
    destruct (filterTags_tags R tagRE image (ImageTags image) acc) as [acc'|]
      eqn:Htags; simpl; [|done].
    apply filterTags_tags_spec in Htags.
    fold (hasMatchingTag R tagRE image) in Htags.
    assert (∀ x, x ∈ rest → ImageDigest image ≠ ImageDigest x) as Himg.
    { intros x Hx Heq. apply Hnotin. rewrite Heq. by apply list_elem_of_fmap_2. }
    destruct (decide (matching image)) as [Hyes|Hno]; subst acc'.
    + rewrite lastIsNot_snoc. intros Hrest.
      apply IH in Hrest as [-> ->]; [|done|].
      * rewrite filter_cons_True by done.
        rewrite filter_cons_False by tauto.
        by rewrite <- app_assoc.
      * intros a x [Ha| ->%list_elem_of_singleton]%elem_of_app Hx.
        -- apply Hfresh; [done|by right].
        -- by apply Himg.
    + rewrite lastIsNot_fresh by (intros a Ha; apply Hfresh; [done|by left]).
      intros Hrest.
      apply IH in Hrest as [-> ->]; [|done|].
      * rewrite filter_cons_False by done.
        rewrite filter_cons_True by done.
        by rewrite <- app_assoc.
      * intros a x Ha Hx. apply Hfresh; [done|by right].
Qed.

Lemma filterTags_images_total images acc wo :
  compiles R tagRE → ∃ m u, filterTags_images R tagRE images acc wo = Ok (m, u).
Proof.
  intros Hc. revert acc wo. induction images as [|image rest IH]; intros acc wo; simpl.
  - eauto.
  - destruct (filterTags_tags_total image (ImageTags image) acc Hc) as [acc' ->].
    simpl. apply IH.
Qed.
End TagFilter.

(** Images with different digests have their digests at different
    addresses. *)
Lemma distinct_digests_addresses (h : gmap loc string) (images : list ImageDetail) :
  NoDup (digestOf h <$> images) → NoDup (ImageDigest <$> images).
Proof.
  intros Hnd. apply (NoDup_fmap_1 (λ p : option loc, p ≫= λ l, h !! l)).
  rewrite <- list_fmap_compose. exact Hnd.
Qed.

Lemma filterTags_post_filter R tagRE images :
  filterTags_post R tagRE images
    (filter (hasMatchingTag R tagRE) images)
    (filter (λ x, ¬ hasMatchingTag R tagRE x) images).
Proof.
  unfold filterTags_post. split_and!; try done.
  - intros x [Hx _]%list_elem_of_filter.
    unfold hasMatchingTag in Hx. apply Exists_exists in Hx. naive_solver.
  - intros x [Hx _]%list_elem_of_filter tag Htag Hm. apply Hx.
    apply Exists_exists. eauto.
  - apply sublist_filter.
  - apply sublist_filter.
  - intros x Hx. rewrite !list_elem_of_filter.
    destruct (decide (hasMatchingTag R tagRE x)); tauto.
Qed.

(** C2.  On images with pairwise distinct digests: with the empty
    pattern [filterTags] returns the input and an empty second list; with
    any other pattern, whatever it returns is the images that have a tag
    matching the pattern, and the images that have none, each in input
    order and every input image in exactly one of the two; and it does
    return when the pattern compiles. *)
Theorem filterTags_correct (R : RegexpPkg) (h : gmap loc string)
  (images : list ImageDetail) (tagRE : string) :
  NoDup (digestOf h <$> images) →
  (tagRE = "" → filterTags R images tagRE = Ok (images, [])) ∧
  (tagRE ≠ "" →
     (∀ matched unmatched,
        filterTags R images tagRE = Ok (matched, unmatched) →
        filterTags_post R tagRE images matched unmatched) ∧
     (compiles R tagRE →
        ∃ matched unmatched, filterTags R images tagRE = Ok (matched, unmatched))).
Proof.
  intros Hnd%distinct_digests_addresses. split.
  - intros ->. done.
  - intros Hne. unfold filterTags.
    destruct (String.eqb_spec tagRE ""); [done|]. split.
    + intros m u Hres.
      apply filterTags_images_spec in Hres as [-> ->]; [|done|].
      * apply filterTags_post_filter.
      * intros a x Ha. by apply elem_of_nil in Ha.
    + intros Hc. by apply filterTags_images_total.
Qed.

Lemma filterTags_correct_witness :
  NoDup (digestOf exampleHeap <$> exampleImages) ∧
  filterTags_post literalRegexp "v1" exampleImages
    [image 1 ["latest"; "v1"] 10; image 3 ["v1.1"] 30] [image 2 ["dev"] 20].
Proof.
  assert (NoDup (digestOf exampleHeap <$> exampleImages)) as Hnd.
  { apply (bool_decide_unpack _). by vm_compute. }
  split; [exact Hnd|].
  destruct (filterTags_correct literalRegexp exampleHeap exampleImages "v1" Hnd)
    as [_ Hpost].
  destruct (Hpost ltac:(done)) as [Hspec _].
  apply Hspec. by vm_compute.
Defined.

(** ** The retention selector *)

Lemma imagesToRemove_nonneg images amountToKeep :
  0 ≤ amountToKeep → len images ≤ GoInt.max_int →
  imagesToRemove images amountToKeep
  = Ok (take (Z.to_nat (len images - amountToKeep)) images).
Proof.
  intros Hk Hlen. unfold imagesToRemove. pose proof (len_nonneg images).
  destruct (Z.ltb_spec (len images) amountToKeep).
  - by replace (Z.to_nat (len images - amountToKeep)) with 0%nat by lia.
  - unfold GoInt.sub. rewrite wrap_in_range
      by (unfold GoInt.in_range, GoInt.min_int, GoInt.max_int in *; lia).
    rewrite slice_ok by lia. simpl. by rewrite Z.sub_0_r.
Qed.


Lemma ascending_app_le p q a b :
  ascending (p ++ q) → a ∈ p → b ∈ q →
  Unix (ImagePushedAt a) ≤ Unix (ImagePushedAt b).
Proof.
  intros Hasc [i Hi]%list_elem_of_lookup [j Hj]%list_elem_of_lookup.
  apply (Hasc i (length p + j)%nat).
  - apply lookup_lt_Some in Hi. lia.
  - by rewrite lookup_app_l by (by eapply lookup_lt_Some).
  - rewrite lookup_app_r by lia. by replace (length p + j - length p)%nat with j by lia.
Qed.

(** C5.  On candidates in ascending order of push time and a keep-count
    [N ≥ 0]: with at most [N] candidates nothing is selected; with [N + k]
    candidates, [k > 0], the selection is the first [k] candidates, it has
    [k] elements, the [N] candidates after them are retained, and no
    selected image was pushed after a retained one. *)
Theorem imagesToRemove_selection (images : list ImageDetail) (N : Z) :
  ascending images → 0 ≤ N → len images ≤ GoInt.max_int →
  (len images ≤ N → imagesToRemove images N = Ok []) ∧
  (∀ k, 0 < k → len images = N + k →
     ∃ selection retained,
       imagesToRemove images N = Ok selection ∧
       images = selection ++ retained ∧
       selection = take (Z.to_nat k) images ∧
       len selection = k ∧
       len retained = N ∧
       ∀ a b, a ∈ selection → b ∈ retained →
              Unix (ImagePushedAt a) ≤ Unix (ImagePushedAt b)).
Proof.
  intros Hasc HN Hlen. rewrite imagesToRemove_nonneg by done. split.
  - intros Hle. by replace (Z.to_nat (len images - N)) with 0%nat by lia.
  - intros k Hk Heq.
    replace (len images - N) with k by lia.
    exists (take (Z.to_nat k) images), (drop (Z.to_nat k) images).
    assert (Z.to_nat k ≤ length images)%nat as Hkl by (unfold len in Heq; lia).
    split_and!; try done.
    + by rewrite take_drop.
    + unfold len. rewrite length_take_le by done. lia.
    + unfold len in *. rewrite length_drop. lia.
    + intros a b Ha Hb. eapply ascending_app_le; [|done..].
      by rewrite take_drop.
Qed.

Lemma imagesToRemove_selection_witness :
  imagesToRemove [image 1 ["a"] 10; image 2 ["b"] 20; image 3 ["c"] 30] 3 = Ok [] ∧
  ∃ selection retained,
    imagesToRemove [image 1 ["a"] 10; image 2 ["b"] 20; image 3 ["c"] 30] 1
    = Ok selection ∧
    [image 1 ["a"] 10; image 2 ["b"] 20; image 3 ["c"] 30] = selection ++ retained ∧
    selection = [image 1 ["a"] 10; image 2 ["b"] 20] ∧
    len selection = 2 ∧
    len retained = 1 ∧
    ∀ a b, a ∈ selection → b ∈ retained →
           Unix (ImagePushedAt a) ≤ Unix (ImagePushedAt b).
Proof.
  assert (ascending [image 1 ["a"] 10; image 2 ["b"] 20; image 3 ["c"] 30]) as Hasc.
  { intros i j a b Hij Hi Hj.
    destruct i as [|[|[|i]]], j as [|[|[|j]]]; simplify_eq/=; lia. }
  split.
  - apply (imagesToRemove_selection _ 3 Hasc); [lia|by vm_compute|by vm_compute].
  - destruct (imagesToRemove_selection _ 1 Hasc) as [_ Hsel]; [lia|by vm_compute|].
    apply (Hsel 2); [lia|by vm_compute].
Defined.

(** ** Sorting by push time *)

Section ByTime.
Implicit Types p : byTime.

Lemma byTime_Less_lookup p i j a b :
  p !! i = Some a → p !! j = Some b →
  Less p i j = (Unix (ImagePushedAt a) <? Unix (ImagePushedAt b)).
Proof. intros Hi Hj. cbv [Less Swap byTime_Interface]. by rewrite Hi, Hj. Qed.

Lemma byTime_Swap_lookup p i j a b :
  p !! i = Some a → p !! j = Some b → Swap p i j = <[i:=b]> (<[j:=a]> p).
Proof. intros Hi Hj. cbv [Less Swap byTime_Interface]. by rewrite Hi, Hj. Qed.

Lemma insert_head_Permutation p j x b :
  p !! j = Some b → b :: <[j:=x]> p ≡ₚ x :: p.
Proof.
  revert j. induction p as [|y p IH]; intros [|j] Hj; simplify_eq/=.
  - apply perm_swap.
  - rewrite perm_swap, (IH _ Hj). apply perm_swap.
Qed.

Lemma insert_swap_Permutation p i j a b :
  p !! i = Some a → p !! j = Some b → <[i:=b]> (<[j:=a]> p) ≡ₚ p.
Proof.
  revert i j. induction p as [|y p IH]; intros [|i] [|j] Hi Hj; simplify_eq/=.
  - done.
  - by apply insert_head_Permutation.
  - by apply insert_head_Permutation.
  - f_equiv. by apply IH.
Qed.

Lemma byTime_Swap_Permutation p i j : Swap p i j ≡ₚ p.
Proof.
  cbv [Swap byTime_Interface]. destruct (p !! i) as [a|] eqn:Hi; [|done].
  destruct (p !! j) as [b|] eqn:Hj; [|done].
  by apply insert_swap_Permutation.
Qed.

(** Two neighbours change places. *)
Lemma byTime_Swap_adjacent (pre post : list ImageDetail) x y :
  Swap (pre ++ y :: x :: post : byTime) (S (length pre)) (length pre)
  = pre ++ x :: y :: post.
Proof.
  rewrite (byTime_Swap_lookup _ _ _ x y).
  - rewrite (insert_app_r_alt pre) by lia. rewrite Nat.sub_diag. simpl.
    rewrite (insert_app_r_alt pre) by lia.
    by replace (S (length pre) - length pre)%nat with 1%nat by lia.
  - rewrite lookup_app_r by lia.
    by replace (S (length pre) - length pre)%nat with 1%nat by lia.
  - by rewrite list_lookup_middle.
Qed.

Lemma insertionSort_inner_Permutation p a j : insertionSort_inner p a j ≡ₚ p.
Proof.
  revert p. induction j as [|j IH]; intros p; cbn [insertionSort_inner]; [done|].
  destruct ((a <? S j)%nat && Less p (S j) j); [|done].
  rewrite IH. apply byTime_Swap_Permutation.
Qed.

Lemma insertionSort_outer_Permutation p a i n : insertionSort_outer p a i n ≡ₚ p.
Proof.
  revert p i. induction n as [|n IH]; intros p i; cbn [insertionSort_outer]; [done|].
  rewrite IH. apply insertionSort_inner_Permutation.
Qed.

Lemma gapPass_Permutation p i n : gapPass p i n ≡ₚ p.
Proof.
  revert p i. induction n as [|n IH]; intros p i; cbn [gapPass]; [done|].
  rewrite IH. destruct (Less p i (i - 6)); [|done].
  apply byTime_Swap_Permutation.
Qed.

(** One run of the inner loop of insertion sort: the element after a
    sorted prefix is moved down to its place, behind the elements that
    are not [Less]. *)
Lemma insertionSort_inner_spec (pre : list ImageDetail) x post :
  StronglySorted pushedNoLater pre →
  ∃ pre1 pre2,
    pre = pre1 ++ pre2 ∧
    insertionSort_inner (pre ++ x :: post : byTime) 0 (length pre)
    = pre1 ++ x :: pre2 ++ post ∧
    Forall (λ y, pushedNoLater y x) pre1 ∧
    Forall (λ y, Unix (ImagePushedAt x) < Unix (ImagePushedAt y)) pre2.
Proof.
  revert post. induction pre as [|y pre IH] using rev_ind; intros post Hs.
  - exists [], []. by split_and!.
  - apply StronglySorted_app in Hs as (Hle & Hs & _).
    rewrite length_app, Nat.add_1_r. cbn [insertionSort_inner].
    rewrite <- app_assoc. simpl app.
    rewrite (byTime_Less_lookup _ _ _ x y).
    2:{ rewrite lookup_app_r by lia.
        by replace (S (length pre) - length pre)%nat with 1%nat by lia. }
    2:{ by rewrite list_lookup_middle. }
    replace (0 <? S (length pre))%nat with true by done. simpl andb.
    destruct (Z.ltb_spec (Unix (ImagePushedAt x)) (Unix (ImagePushedAt y))) as [Hlt|Hge].
    + rewrite byTime_Swap_adjacent.
      destruct (IH (y :: post) Hs) as (pre1 & pre2 & -> & -> & H1 & H2).
      exists pre1, (pre2 ++ [y]). split_and!.
      * by rewrite app_assoc.
      * by rewrite <- !app_assoc.
      * done.
      * apply Forall_app. split; [done|]. by apply Forall_singleton.
    + exists (pre ++ [y]), []. split_and!.
      * by rewrite app_nil_r.
      * by rewrite <- app_assoc.
      * apply Forall_app. split.
        -- apply Forall_forall. intros z Hz. unfold pushedNoLater in *.
           specialize (Hle z y Hz ltac:(by apply list_elem_of_singleton)). lia.
        -- apply Forall_singleton. unfold pushedNoLater. lia.
      * done.
Qed.

Lemma insertionSort_outer_sorted (post pre : list ImageDetail) :
  StronglySorted pushedNoLater pre →
  StronglySorted pushedNoLater
    (insertionSort_outer (pre ++ post : byTime) 0 (length pre) (length post)).
Proof.
  revert pre. induction post as [|x post IH]; intros pre Hs.
  - simpl. by rewrite app_nil_r.
  - cbn [length insertionSort_outer].
    destruct (insertionSort_inner_spec pre x post Hs)
      as (pre1 & pre2 & Hpre & -> & H1 & H2).
    assert (S (length pre) = length (pre1 ++ x :: pre2)) as ->.
    { rewrite Hpre, !length_app. simpl. lia. }
    replace (pre1 ++ x :: pre2 ++ post) with ((pre1 ++ x :: pre2) ++ post)
      by (by rewrite <- app_assoc).
    apply IH. subst pre.
    apply StronglySorted_app in Hs as (Hle & Hs1 & Hs2).
    apply StronglySorted_app_2; [|done|].
    + intros x1 x2 Hx1 [->|Hx2]%elem_of_cons.
      * by eapply Forall_forall in H1.
      * by apply Hle.
    + apply StronglySorted_cons. split; [|done].
      eapply Forall_impl; [exact H2|]. unfold pushedNoLater. simpl. lia.
Qed.

Lemma insertionSort_sorted p :
  StronglySorted pushedNoLater (insertionSort p 0 (length p)).
Proof.
  unfold insertionSort. destruct p as [|x p]; [constructor|].
  simpl length. replace (S (length p) - (0 + 1))%nat with (length p) by lia.
  apply (insertionSort_outer_sorted p [x]).
  repeat constructor.
Qed.

Lemma shortSort_Permutation p : shortSort byTime byTime_Interface p ≡ₚ p.
Proof.
  unfold shortSort, shortSort_range, insertionSort.
  destruct (1 <? Len p - 0)%nat; [|done].
  by rewrite insertionSort_outer_Permutation, gapPass_Permutation.
Qed.

Lemma shortSort_sorted p :
  StronglySorted pushedNoLater (shortSort byTime byTime_Interface p).
Proof.
  unfold shortSort, shortSort_range.
  destruct (Nat.ltb_spec 1 (Len p - 0)) as [Hlt|Hge].
  - set (q := gapPass p (0 + 6) (Len p - (0 + 6))).
    assert (Len p = length q) as ->.
    { cbv [Len byTime_Interface]. apply Permutation_length. symmetry.
      apply gapPass_Permutation. }
    apply insertionSort_sorted.
  - simpl in Hge. destruct p as [|x [|y p]]; simpl in Hge; [| |lia];
      repeat constructor.
Qed.

Lemma sorted_not_Less p i j :
  StronglySorted pushedNoLater p → (i < j < Len p)%nat → Less p j i = false.
Proof.
  intros Hs [Hij Hj]. cbv [Len Less byTime_Interface] in *.
  destruct (lookup_lt_is_Some_2 p j Hj) as [b Hb].
  destruct (lookup_lt_is_Some_2 p i ltac:(lia)) as [a Ha].
  rewrite Hb, Ha. apply Z.ltb_ge.
  rewrite <- (take_drop j p) in Hs, Ha, Hb.
  assert (length (take j p) = j) as Hlen by (rewrite length_take; lia).
  rewrite lookup_app_l in Ha by lia.
  rewrite lookup_app_r in Hb by lia.
  eapply (StronglySorted_app_1_elem_of _ _ _ a b Hs).
  - by eapply list_elem_of_lookup_2.
  - by eapply list_elem_of_lookup_2.
Qed.

Lemma shortSort_contract : sortContract shortSort.
Proof.
  intros p. split; [apply shortSort_Permutation|].
  intros i j Hij. apply sorted_not_Less; [apply shortSort_sorted|done].
Qed.

End ByTime.




(** ** The batch deleter *)

Lemma buildImageIdentifier_loop_spec images acc :
  buildImageIdentifier_loop images acc = acc ++ idsOf images.
Proof.
  revert acc. induction images as [|image rest IH]; intros acc; simpl.
  - by rewrite app_nil_r.
  - rewrite IH. by rewrite <- app_assoc.
Qed.

Lemma buildImageIdentifier_spec images : buildImageIdentifier images = idsOf images.
Proof. unfold buildImageIdentifier. by rewrite buildImageIdentifier_loop_spec. Qed.

Lemma fullChunks_length n plan : length (fullChunks n plan) = n.
Proof. revert plan. induction n; intros plan; simpl; auto. Qed.

Lemma fullChunks_concat n plan :
  (100 * n ≤ length plan)%nat →
  concat (fullChunks n plan) = take (100 * n) plan ∧
  Forall (λ chunk, length chunk = 100%nat) (fullChunks n plan).
Proof.
  revert plan. induction n as [|n IH]; intros plan Hn.
  - by rewrite Nat.mul_0_r.
  - cbn [fullChunks concat].
    destruct (IH (drop 100 plan)) as [-> Hall]; [rewrite length_drop; lia|].
    split.
    + replace (100 * S n)%nat with (100 + 100 * n)%nat by lia.
      by rewrite take_take_drop.
    + constructor; [|done]. rewrite length_take. lia.
Qed.

(** The chunks are consecutive pieces of the plan: [len/100] of them have
    100 images, and one more holds the [len mod 100] images that remain. *)
Lemma batches_shape plan :
  concat (batches plan) = plan ∧
  length (batches plan) = S (length plan / 100) ∧
  Forall (λ chunk, (length chunk ≤ 100)%nat) (batches plan) ∧
  (length <$> last (batches plan)) = Some (length plan `mod` 100)%nat.
Proof.
  unfold batches.
  pose proof (Nat.div_mod_eq (length plan) 100) as Hdm.
  pose proof (Nat.mod_upper_bound (length plan) 100 ltac:(done)) as Hmod.
  destruct (fullChunks_concat (length plan / 100) plan) as [Hcat Hall]; [lia|].
  split_and!.
  - rewrite concat_app, Hcat. simpl. rewrite app_nil_r. apply take_drop.
  - rewrite length_app, fullChunks_length. simpl. lia.
  - apply Forall_app. split.
    + eapply Forall_impl; [exact Hall|]. simpl. lia.
    + apply Forall_singleton. rewrite length_drop. lia.
  - rewrite last_snoc. simpl. rewrite length_drop. f_equal. lia.
Qed.

Section BatchDeleter.
Context {C : Client}.
Variable repoName : string.
Implicit Types w : World C.

Lemma deleteImages_run chunk w :
  deleteImages repoName chunk w
  = (Ok (errDeleting repoName <$> (BatchDeleteImage C repoName (idsOf chunk) (registry w)).2),
     {| registry := (BatchDeleteImage C repoName (idsOf chunk) (registry w)).1;
        trace := trace w ++
          [deleteEvent repoName chunk
             (bool_decide (is_Some (BatchDeleteImage C repoName (idsOf chunk) (registry w)).2))] |}).
Proof.
  unfold deleteImages, bindM, apiBatchDeleteImage, deleteEvent.
  rewrite buildImageIdentifier_spec.
  destruct (BatchDeleteImage C repoName (idsOf chunk) (registry w)) as [st [e|]]; done.
Qed.

Lemma slice_chunk (plan : list ImageDetail) (k : nat) :
  (100 * S k ≤ length plan)%nat →
  slice plan (Z.of_nat k * 100) ((Z.of_nat k + 1) * 100)
  = Ok (take 100 (drop (100 * k) plan)).
Proof.
  intros Hk. rewrite slice_ok by (unfold len; lia).
  f_equal. f_equal; [lia|f_equal; lia].
Qed.

Lemma slice_rest (plan : list ImageDetail) (k : nat) :
  (100 * k ≤ length plan)%nat →
  slice_from plan (Z.of_nat k * 100) = Ok (drop (100 * k) plan).
Proof.
  intros Hk. unfold slice_from. rewrite slice_ok by (unfold len; lia).
  replace (Z.to_nat (Z.of_nat k * 100)) with (100 * k)%nat by lia.
  rewrite take_ge; [done|]. rewrite length_drop. unfold len. lia.
Qed.

Lemma len_quot (plan : list ImageDetail) :
  len plan ÷ 100 = Z.of_nat (length plan / 100).
Proof.
  unfold len. rewrite Z.quot_div_nonneg by lia. by rewrite Nat2Z.inj_div.
Qed.

Lemma deleteLoop_end plan fuel w :
  deleteLoop fuel repoName plan (Z.of_nat (length plan / 100)) w
  = (Ok (inr (Z.of_nat (length plan / 100))), w).
Proof. destruct fuel; cbn [deleteLoop]; by rewrite len_quot, Z.ltb_irrefl. Qed.

Lemma deleteLoop_step plan fuel (k : nat) w :
  (k < length plan / 100)%nat →
  deleteLoop (S fuel) repoName plan (Z.of_nat k) w
  = let chunk := take 100 (drop (100 * k) plan) in
    match BatchDeleteImage C repoName (idsOf chunk) (registry w) with
    | (st, Some e) =>
        (Ok (inl (errDeleting repoName (errDeleting repoName e))),
         {| registry := st; trace := trace w ++ [deleteEvent repoName chunk true] |})
    | (st, None) =>
        deleteLoop fuel repoName plan (Z.of_nat (S k))
          {| registry := st; trace := trace w ++ [deleteEvent repoName chunk false] |}
    end.
Proof.
  intros Hk. pose proof (Nat.div_mod_eq (length plan) 100) as Hdm.
  cbn [deleteLoop]. rewrite len_quot.
  destruct (Z.ltb_spec (Z.of_nat k) (Z.of_nat (length plan / 100))); [|lia].
  unfold bindM, liftRes. rewrite slice_chunk by lia.
  rewrite deleteImages_run. cbv zeta.
  destruct (BatchDeleteImage C repoName _ (registry w)) as [st [e|]]; simpl.
  - done.
  - by replace (Z.of_nat k + 1) with (Z.of_nat (S k)) by lia.
Qed.

(** The loop from position [k], with [m] full chunks ahead: either every
    call succeeds and the loop ends with [i = len/100], or it returns at
    the first call that fails. *)
Lemma deleteLoop_spec plan (m : nat) :
  ∀ (k fuel : nat) w,
    (k + m = length plan / 100)%nat → (m ≤ fuel)%nat →
    let chunks := fullChunks m (drop (100 * k) plan) in
    let r := deleteLoop fuel repoName plan (Z.of_nat k) w in
    (r.1 = Ok (inr (Z.of_nat (length plan / 100))) ∧
     trace r.2 = trace w ++ ((λ c, deleteEvent repoName c false) <$> chunks) ∧
     registry r.2 = afterDeletes C repoName chunks (registry w) ∧
     allSucceed C repoName chunks (registry w))
    ∨
    (∃ done_chunks failed_chunk rest msg,
       chunks = done_chunks ++ failed_chunk :: rest ∧
       r.1 = Ok (inl msg) ∧
       trace r.2 = trace w ++ ((λ c, deleteEvent repoName c false) <$> done_chunks)
                           ++ [deleteEvent repoName failed_chunk true] ∧
       registry r.2 = afterDeletes C repoName (done_chunks ++ [failed_chunk]) (registry w) ∧
       allSucceed C repoName done_chunks (registry w) ∧
       failsAfter C repoName done_chunks failed_chunk (registry w) = true).
Proof.
  induction m as [|m IH]; intros k fuel w Hkm Hfuel chunks r; subst chunks r.
  - left. replace k with (length plan / 100)%nat by lia.
    rewrite deleteLoop_end. simpl. by rewrite app_nil_r.
  - destruct fuel as [|fuel]; [lia|].
    rewrite deleteLoop_step by lia. cbv zeta. cbn [fullChunks].
    set (chunk := take 100 (drop (100 * k) plan)).
    rewrite drop_drop.
    replace (100 * k + 100)%nat with (100 * S k)%nat by lia.
    destruct (BatchDeleteImage C repoName (idsOf chunk) (registry w))
      as [st err] eqn:Hcall.
    destruct err as [e|].
    + right.
      exists [], chunk, (fullChunks m (drop (100 * S k) plan)),
             (errDeleting repoName (errDeleting repoName e)).
      unfold failsAfter, afterDeletes. simpl. rewrite Hcall. simpl.
      by split_and!.
    + set (w1 := {| registry := st;
                    trace := trace w ++ [deleteEvent repoName chunk false] |}).
      destruct (IH (S k) fuel w1 ltac:(lia) ltac:(lia))
        as [(Hr & Ht & Hs & Hall)
           |(dc & fc & rest & msg & Hch & Hr & Ht & Hs & Hall & Hfail)].
      * left. split_and!; [done| | |].
        -- rewrite Ht. simpl. by rewrite <- app_assoc.
        -- rewrite Hs. unfold afterDeletes. simpl. by rewrite Hcall.
        -- simpl. by rewrite Hcall.
      * right. exists (chunk :: dc), fc, rest, msg. split_and!; [|done| | | |].
        -- by rewrite Hch.
        -- rewrite Ht. simpl. by rewrite <- !app_assoc.
        -- rewrite Hs. unfold afterDeletes. simpl. by rewrite Hcall.
        -- simpl. by rewrite Hcall.
        -- rewrite <- Hfail. unfold failsAfter, afterDeletes. simpl. by rewrite Hcall.
Qed.

Lemma allSucceed_app chunks1 chunks2 (st : State C) :
  allSucceed C repoName (chunks1 ++ chunks2) st ↔
  allSucceed C repoName chunks1 st ∧
  allSucceed C repoName chunks2 (afterDeletes C repoName chunks1 st).
Proof.
  revert st. induction chunks1 as [|c cs IH]; intros st; simpl.
  - unfold afterDeletes. simpl. tauto.
  - rewrite IH. unfold afterDeletes. simpl. tauto.
Qed.

Lemma afterDeletes_snoc chunks chunk (st : State C) :
  afterDeletes C repoName (chunks ++ [chunk]) st
  = (BatchDeleteImage C repoName (idsOf chunk) (afterDeletes C repoName chunks st)).1.
Proof. unfold afterDeletes. by rewrite foldl_app. Qed.

(** What [cleanupImages] does with a non-empty list when it is not a
    dry run: delete calls for the chunks in order, up to and including
    the first that fails, and nothing else. *)
Lemma submitPlan_spec (plan : list ImageDetail) w :
  plan ≠ [] →
  ∃ done_chunks last_chunk rest,
    batches plan = done_chunks ++ last_chunk :: rest ∧
    allSucceed C repoName done_chunks (registry w) ∧
    trace (submitPlan repoName plan false w).2
    = trace w ++ ((λ c, deleteEvent repoName c false) <$> done_chunks)
              ++ [deleteEvent repoName last_chunk
                    (failsAfter C repoName done_chunks last_chunk (registry w))] ∧
    registry (submitPlan repoName plan false w).2
    = afterDeletes C repoName (done_chunks ++ [last_chunk]) (registry w) ∧
    (failsAfter C repoName done_chunks last_chunk (registry w) = true →
     ∃ msg, (submitPlan repoName plan false w).1 = Ok (Some msg)) ∧
    (failsAfter C repoName done_chunks last_chunk (registry w) = false →
     (submitPlan repoName plan false w).1 = Ok None ∧ rest = []) ∧
    ((submitPlan repoName plan false w).1 = Ok None ↔
     allSucceed C repoName (batches plan) (registry w)).
Proof.
  intros Hne.
  cut (∃ done_chunks last_chunk rest,
         batches plan = done_chunks ++ last_chunk :: rest ∧
         allSucceed C repoName done_chunks (registry w) ∧
         trace (submitPlan repoName plan false w).2
         = trace w ++ ((λ c, deleteEvent repoName c false) <$> done_chunks)
                   ++ [deleteEvent repoName last_chunk
                         (failsAfter C repoName done_chunks last_chunk (registry w))] ∧
         registry (submitPlan repoName plan false w).2
         = afterDeletes C repoName (done_chunks ++ [last_chunk]) (registry w) ∧
         (failsAfter C repoName done_chunks last_chunk (registry w) = true →
          ∃ msg, (submitPlan repoName plan false w).1 = Ok (Some msg)) ∧
         (failsAfter C repoName done_chunks last_chunk (registry w) = false →
          (submitPlan repoName plan false w).1 = Ok None ∧ rest = [])).
  { intros (dc & lc & rest & Hb & Hall & Ht & Hs & Hfail & Hok).
    exists dc, lc, rest. split_and!; try done.
    rewrite Hb, allSucceed_app. cbn [allSucceed].
    unfold failsAfter in *.
    destruct ((BatchDeleteImage C repoName (idsOf lc)
                 (afterDeletes C repoName dc (registry w))).2) as [e|] eqn:Hlast.
    - destruct Hfail as [msg Hmsg]; [by apply bool_decide_eq_true_2|].
      rewrite Hmsg. split; [done|]. by intros (_ & ? & _).
    - destruct Hok as [Hres ->]; [by apply bool_decide_eq_false_2, is_Some_None|].
      rewrite Hres. split; [|done]. intros _. by split_and!. }
  pose proof (Nat.div_mod_eq (length plan) 100) as Hdm.
  unfold submitPlan.
  destruct (Z.leb_spec (len plan) 0) as [Hle|_].
  { destruct plan; [done|]. unfold len in Hle. simpl in Hle. lia. }
  unfold bindM.
  pose proof (deleteLoop_spec plan (length plan / 100) 0 (length plan) w
                ltac:(lia) ltac:(lia)) as Hloop.
  cbv zeta in Hloop. rewrite Nat.mul_0_r, drop_0 in Hloop.
  change (Z.of_nat 0) with 0 in Hloop.
  destruct (deleteLoop (length plan) repoName plan 0 w) as [res [st tr]].
  simpl in Hloop.
  destruct Hloop as [(Hr & Ht & Hs & Hall)
                    |(dc & fc & rest & msg & Hch & Hr & Ht & Hs & Hall & Hfail)];
    subst res tr st.
  - unfold liftRes. rewrite slice_rest by lia.
    rewrite deleteImages_run. simpl registry. simpl trace.
    set (done_chunks := fullChunks (length plan / 100) plan).
    set (chunk := drop (100 * (length plan / 100)) plan).
    exists done_chunks, chunk, []. fold (batches plan).
    unfold failsAfter.
    destruct (BatchDeleteImage C repoName (idsOf chunk)
                (afterDeletes C repoName done_chunks (registry w)))
      as [st err] eqn:Hcall.
    split_and!; try done.
    + destruct err; simpl; by rewrite <- app_assoc.
    + rewrite afterDeletes_snoc, Hcall. by destruct err.
    + simpl. rewrite Hcall. destruct err; simpl; [eauto|done].
    + simpl. rewrite Hcall. by destruct err.
  - exists dc, fc, (rest ++ [drop (100 * (length plan / 100)) plan]).
    rewrite Hfail. unfold batches. rewrite Hch. simpl.
    split_and!; try done.
    + by rewrite <- app_assoc.
    + eauto.
Qed.
End BatchDeleter.

Section CleanupImages.
Context {C : Client}.
Variable R : RegexpPkg.
Variable sort_Sort : SortFn.
Variable repoName : string.
Implicit Types w : World C.

Lemma cleanupImages_plan images dryRun amountToKeep tagFilter plan w :
  deletionPlan R sort_Sort images amountToKeep tagFilter = Ok plan →
  cleanupImages R sort_Sort repoName images dryRun amountToKeep tagFilter w
  = submitPlan repoName plan dryRun w.
Proof. intros Hplan. unfold cleanupImages, bindM, liftRes. by rewrite Hplan. Qed.

End CleanupImages.

(** C6.  Once the list to delete is built, a dry run returns [nil] and
    leaves the registry and the trace of calls as they were; so does a run
    whose list is empty. *)
Theorem cleanupImages_dry_run_or_empty {C : Client} (R : RegexpPkg) (sort_Sort : SortFn)
  (repoName : string) (images : list ImageDetail) (dryRun : bool) (amountToKeep : Z)
  (tagFilter : TagFiltering) (plan : list ImageDetail) (w : World C) :
  deletionPlan R sort_Sort images amountToKeep tagFilter = Ok plan →
  dryRun = true ∨ plan = [] →
  cleanupImages R sort_Sort repoName images dryRun amountToKeep tagFilter w = (Ok None, w).
Proof.
  intros Hplan Hcase. rewrite (cleanupImages_plan _ _ _ _ _ _ _ _ _ Hplan).
  unfold submitPlan. destruct Hcase as [->| ->]; [done|].
  by destruct dryRun.
Qed.

Lemma cleanupImages_dry_run_or_empty_witness :
  cleanupImages literalRegexp shortSort "app" (untaggedImages 3) true 100 noFilter
    (startWorld (registryOf (untaggedImages 3) None))
  = (Ok None, startWorld (registryOf (untaggedImages 3) None)).
Proof.
  apply (cleanupImages_dry_run_or_empty _ _ _ _ _ _ _ (untaggedImages 3)).
  - by vm_compute.
  - by left.
Defined.

(** C7.  With a non-empty list to delete and no dry run, the calls made
    are delete calls for the chunks in order, up to and including the
    first one that fails; the registry is what those calls left; the
    result is an error exactly when that last call failed, and [nil]
    exactly when the calls for all chunks succeeded. *)
Theorem cleanupImages_stops_at_failure {C : Client} (R : RegexpPkg) (sort_Sort : SortFn)
  (repoName : string) (images : list ImageDetail) (amountToKeep : Z)
  (tagFilter : TagFiltering) (plan : list ImageDetail) (w : World C) :
  deletionPlan R sort_Sort images amountToKeep tagFilter = Ok plan →
  plan ≠ [] →
  let r := cleanupImages R sort_Sort repoName images false amountToKeep tagFilter w in
  ∃ done_chunks last_chunk rest,
    batches plan = done_chunks ++ last_chunk :: rest ∧
    allSucceed C repoName done_chunks (registry w) ∧
    trace r.2 = trace w ++ ((λ c, deleteEvent repoName c false) <$> done_chunks)
                        ++ [deleteEvent repoName last_chunk
                              (failsAfter C repoName done_chunks last_chunk (registry w))] ∧
    registry r.2 = afterDeletes C repoName (done_chunks ++ [last_chunk]) (registry w) ∧
    (failsAfter C repoName done_chunks last_chunk (registry w) = true →
     ∃ msg, r.1 = Ok (Some msg)) ∧
    (failsAfter C repoName done_chunks last_chunk (registry w) = false →
     r.1 = Ok None ∧ rest = []) ∧
    (r.1 = Ok None ↔ allSucceed C repoName (batches plan) (registry w)).
Proof.
  intros Hplan Hne r. subst r.
  rewrite (cleanupImages_plan _ _ _ _ _ _ _ _ _ Hplan).
  by apply submitPlan_spec.
Qed.

Lemma cleanupImages_stops_at_failure_witness :
  let w := startWorld (registryOf (untaggedImages 250) (Some 1%nat)) in
  let r := cleanupImages literalRegexp shortSort "app" (untaggedImages 250) false 100
             noFilter w in
  ∃ done_chunks last_chunk rest,
    batches (untaggedImages 250) = done_chunks ++ last_chunk :: rest ∧
    allSucceed memoryClient "app" done_chunks (registry w) ∧
    trace r.2 = trace w ++ ((λ c, deleteEvent "app" c false) <$> done_chunks)
                        ++ [deleteEvent "app" last_chunk
                              (failsAfter memoryClient "app" done_chunks last_chunk (registry w))] ∧
    registry r.2 = afterDeletes memoryClient "app" (done_chunks ++ [last_chunk]) (registry w) ∧
    (failsAfter memoryClient "app" done_chunks last_chunk (registry w) = true →
     ∃ msg, r.1 = Ok (Some msg)) ∧
    (failsAfter memoryClient "app" done_chunks last_chunk (registry w) = false →
     r.1 = Ok None ∧ rest = []) ∧
    (r.1 = Ok None ↔ allSucceed memoryClient "app" (batches (untaggedImages 250)) (registry w)).
Proof.
  apply (cleanupImages_stops_at_failure literalRegexp shortSort "app"
           (untaggedImages 250) 100 noFilter (untaggedImages 250)).
  - by vm_compute.
  - done.
Defined.

(** The run of that example: the first call deletes 100 images, the second
    fails, the third chunk is never sent, and the error is returned. *)
Example cleanupImages_second_call_fails :
  let r := cleanupImages literalRegexp shortSort "app" (untaggedImages 250) false 100
             noFilter (startWorld (registryOf (untaggedImages 250) (Some 1%nat))) in
  is_err_result r.1 = true ∧
  (λ e, (callSize e, failed e)) <$> trace r.2 = [(100%nat, false); (100%nat, true)] ∧
  length <$> lookupRepo "app" (contents (registry r.2)) = Some 150%nat.
Proof. by vm_compute. Qed.

(** Without failures the calls are those for all the chunks: one more
    than [len/100]. *)
Lemma cleanupImages_all_chunks {C : Client} (R : RegexpPkg) (sort_Sort : SortFn)
  (repoName : string) (images : list ImageDetail) (amountToKeep : Z)
  (tagFilter : TagFiltering) (plan : list ImageDetail) (w : World C) :
  deletionPlan R sort_Sort images amountToKeep tagFilter = Ok plan →
  plan ≠ [] →
  allSucceed C repoName (batches plan) (registry w) →
  trace (cleanupImages R sort_Sort repoName images false amountToKeep tagFilter w).2
  = trace w ++ ((λ c, deleteEvent repoName c false) <$> batches plan) ∧
  length (batches plan) = S (length plan / 100).
Proof.
  intros Hplan Hne Hall.
  rewrite (cleanupImages_plan _ _ _ _ _ _ _ _ _ Hplan).
  destruct (submitPlan_spec repoName plan w Hne)
    as (dc & lc & rest & Hb & _ & Ht & _ & _ & Hok & _).
  split; [|apply batches_shape].
  rewrite Ht. rewrite Hb in Hall.
  apply allSucceed_app in Hall as [_ [Hl _]].
  destruct Hok as [_ ->].
  - unfold failsAfter. rewrite Hl. by apply bool_decide_eq_false_2, is_Some_None.
  - unfold failsAfter. rewrite Hl.
    rewrite bool_decide_eq_false_2 by apply is_Some_None.
    by rewrite Hb, fmap_app.
Qed.

(** C1 fails on a list of 100 images: two delete calls are made where
    [ceil(100/100)] is one, and the last of them carries no image. *)
Theorem cleanupImages_hundred_images :
  let w := startWorld (registryOf (untaggedImages 100) None) in
  let r := cleanupImages literalRegexp shortSort "app" (untaggedImages 100) false 100
             noFilter w in
  deletionPlan literalRegexp shortSort (untaggedImages 100) 100 noFilter
  = Ok (untaggedImages 100) ∧
  len (untaggedImages 100) = 100 ∧
  r.1 = Ok None ∧
  callSize <$> trace r.2 = [100%nat; 0%nat] ∧
  length (filter (λ e, is_delete e = true) (trace r.2)) = 2%nat.
Proof. by vm_compute. Qed.

(** ** The list to delete *)

Section DeletionPlan.
Variable R : RegexpPkg.
Variable sort_Sort : SortFn.




Lemma slice_sublist {A} (s t : list A) lo hi : slice s lo hi = Ok t → t `sublist_of` s.
Proof.
  unfold slice. destruct (_ && _); [|done]. intros [= <-].
  etrans; [apply sublist_take|apply sublist_drop].
Qed.

Lemma imagesToRemove_sublist images amountToKeep selected :
  imagesToRemove images amountToKeep = Ok selected → selected `sublist_of` images.
Proof.
  unfold imagesToRemove. destruct (_ <? _).
  - intros [= <-]. apply sublist_nil_l.
  - apply slice_sublist.
Qed.

Lemma deletionPlan_unfold images amountToKeep tagFilter :
  deletionPlan R sort_Sort images amountToKeep tagFilter
  = res_bind (filterTags R (filter (λ x, ¬ untagged x) images) (regExp tagFilter))
      (λ '(matched, unmatched),
         res_bind
           (imagesToRemove
              (sort_Sort byTime byTime_Interface
                 (if strings.Contains (action tagFilter) "delete"
                  then matched else unmatched))
              amountToKeep)
           (λ selected, Ok (filter untagged images ++ selected))).
Proof. unfold deletionPlan. by rewrite separateHavingTag_spec. Qed.
End DeletionPlan.


(** ** [main] *)

Section Main.
Context {C : Client}.
Variable R : RegexpPkg.
Variable sort_Sort : SortFn.
Implicit Types w : World C.

(** A pattern that does not compile ends the process before any call to
    the registry. *)
Lemma main_bad_regexp fuel flags w err :
  Compile R (tag_regexp flags) = inr err →
  main R sort_Sort fuel flags w = (Stop (LogFatal err), w).
Proof. intros Hc. unfold main. by rewrite Hc. Qed.

(** So does an action that is not a piece of the string [deletesave]. *)
Lemma main_rejected_action fuel flags w re :
  Compile R (tag_regexp flags) = inl re →
  strings.Contains "deletesave" (strings.ToLower (post_filter_action flags)) = false →
  ∃ msg, main R sort_Sort fuel flags w = (Stop (LogFatal msg), w).
Proof. intros Hc Ha. unfold main. rewrite Hc. cbn [action]. rewrite Ha. simpl negb. eauto. Qed.


End Main.

(** C3 fails on the action [etes]: it is neither [delete] nor [save], yet
    [main] accepts it, as it accepts the empty action, asks the registry
    for the images and ends with status 0. *)
Theorem main_accepts_pieces_of_deletesave :
  let w := startWorld (registryOf exampleImages None) in
  strings.ToLower "etes" ≠ "delete" ∧ strings.ToLower "etes" ≠ "save" ∧
  exitStatus (main literalRegexp shortSort 1 (flagsAction "etes") w).1 = Some 0 ∧
  call <$> trace (main literalRegexp shortSort 1 (flagsAction "etes") w).2
  = [CallDescribeImages "app" None] ∧
  exitStatus (main literalRegexp shortSort 1 (flagsAction "") w).1 = Some 0 ∧
  call <$> trace (main literalRegexp shortSort 1 (flagsAction "") w).2
  = [CallDescribeImages "app" None].
Proof. by vm_compute. Qed.

(** The two values the message names are accepted, in any case of the
    letters, and a value that is no piece of [deletesave] is refused with
    status 1 before any call. *)
Example main_action_examples :
  let w := startWorld (registryOf exampleImages None) in
  exitStatus (main literalRegexp shortSort 1 (flagsAction "Delete") w).1 = Some 0 ∧
  exitStatus (main literalRegexp shortSort 1 (flagsAction "SAVE") w).1 = Some 0 ∧
  exitStatus (main literalRegexp shortSort 1 (flagsAction "keep") w).1 = Some 1 ∧
  trace (main literalRegexp shortSort 1 (flagsAction "keep") w).2 = [].
Proof. by vm_compute. Qed.

(** ** The keep-count and the bounds of the slice *)




(** The runs of [main] with [--keep=-1] and with a keep-count that is not
    negative, on a repository of three tagged images. *)
Example main_keep_examples :
  let w := startWorld (registryOf exampleImages None) in
  (main literalRegexp shortSort 1 (flagsKeep (-1)) w).1 = Stop (SliceBounds 0 4 3) ∧
  exitStatus (main literalRegexp shortSort 1 (flagsKeep (-1)) w).1 = Some 2 ∧
  exitStatus (main literalRegexp shortSort 1 (flagsKeep 2) w).1 = Some 0 ∧
  callSize <$> filter (λ e, is_delete e = true)
                 (trace (main literalRegexp shortSort 1 (flagsKeep 2) w).2) = [1%nat].
Proof. by vm_compute. Qed.



(** ** Scenarios *)

(** Five untagged and 150 tagged images, [--keep=100], no pattern: the 50
    oldest tagged images are selected and one call deletes 55 images. *)
Example scenario_keep_100 :
  let images := untaggedImages 5 ++ taggedImages 150 in
  let r := cleanupImages literalRegexp shortSort "app" images false 100 noFilter
             (startWorld (registryOf images None)) in
  deletionPlan literalRegexp shortSort images 100 noFilter
  = Ok (untaggedImages 5 ++ taggedImages 50) ∧
  r.1 = Ok None ∧
  (λ e, (callSize e, failed e)) <$> trace r.2 = [(55%nat, false)].
Proof. by vm_compute. Qed.

(** The same repository with [--keep=200]: only the untagged images go. *)
Example scenario_keep_200 :
  let images := untaggedImages 5 ++ taggedImages 150 in
  let r := cleanupImages literalRegexp shortSort "app" images false 200 noFilter
             (startWorld (registryOf images None)) in
  deletionPlan literalRegexp shortSort images 200 noFilter = Ok (untaggedImages 5) ∧
  r.1 = Ok None ∧
  (λ e, (callSize e, failed e)) <$> trace r.2 = [(5%nat, false)].
Proof. by vm_compute. Qed.

(** Two images that share the address of their digest: the second has no
    matching tag, finds its own digest at the end of the matched list and
    is put in neither output. *)
Example filterTags_shared_digest :
  filterTags literalRegexp [image 1 ["v1"] 10; image 1 ["dev"] 20] "v1"
  = Ok ([image 1 ["v1"] 10], []).
Proof. by vm_compute. Qed.

(** * Further properties *)

(** ** Fetching the images of a repository *)

Section GetImages.
Context {C : Client}.
Variable repoName : string.

Lemma Pages_tokens_pages token st tokens pages st' err :
  Pages C repoName token st tokens pages st' err →
  tokens ≠ [] ∧
  length tokens = match err with
                  | Some _ => S (length pages)
                  | None => length pages
                  end.
Proof.
  induction 1 as [| |????????? Hcall Hrest [IHne IHlen]]; simpl; [done..|].
  split; [done|]. rewrite IHlen. by destruct err.
Qed.

(** The loop of [getImages] follows the tokens: it makes the calls of the
    run and nothing else, and returns the pages appended to what it had,
    or no image at all and the error. *)
Lemma getImages_loop_pages token st tokens pages st' err :
  Pages C repoName token st tokens pages st' err →
  ∀ (fuel : nat) acc tr, (length tokens ≤ fuel)%nat →
    getImages_loop fuel repoName token acc {| registry := st; trace := tr |}
    = (Ok (match err with
           | None => (acc ++ concat pages, None)
           | Some e => ([], Some ("getting " +:+ repoName +:+ " image details: " +:+ e))
           end),
       {| registry := st';
          trace := tr ++ describeEvents repoName tokens (bool_decide (is_Some err)) |}).
Proof.
  induction 1 as [token st st' imageDetails Hcall
                 |token st st' err Hcall
                 |token st st1 imageDetails next tokens pages st' err Hcall Hrest IH];
    intros fuel acc tr Hfuel; (destruct fuel as [|fuel]; [simpl in Hfuel; lia|]);
    cbn [getImages_loop]; unfold bindM, apiDescribeImages; cbn [registry trace];
    rewrite Hcall; cbn [is_err].
  - unfold retM. simpl. by rewrite app_nil_r.
  - done.
  - simpl in Hfuel. rewrite IH by lia.
    destruct (Pages_tokens_pages _ _ _ _ _ _ Hrest) as [Hne _].
    destruct tokens as [|t tokens]; [done|].
    f_equal.
    + destruct err; [done|]. simpl. by rewrite <- app_assoc.
    + f_equal. by rewrite <- app_assoc.
Qed.
End GetImages.

(** X1.  When the registry answers page after page and the last page
    carries no token, [getImages] returns the images of all pages, in the
    order received, after exactly one call per page, each sent with the
    token of the page before. *)
Theorem getImages_all_pages {C : Client} (repoName : string) (fuel : nat) (w : World C)
  (tokens : list (option string)) (pages : list (list ImageDetail)) (st' : State C) :
  Pages C repoName None (registry w) tokens pages st' None →
  (length tokens ≤ fuel)%nat →
  getImages fuel repoName w
  = (Ok (concat pages, None),
     {| registry := st'; trace := trace w ++ describeEvents repoName tokens false |}) ∧
  length tokens = length pages.
Proof.
  intros Hpages Hfuel. split; [|by apply Pages_tokens_pages in Hpages as [_ ?]].
  unfold getImages. destruct w as [st tr].
  by rewrite (getImages_loop_pages _ _ _ _ _ _ _ Hpages).
Qed.

Lemma getImages_all_pages_witness :
  getImages 2 "app"
    (Build_World scriptedClient [inl (untaggedImages 2); inl (taggedImages 1)] [])
  = (Ok (concat [untaggedImages 2; taggedImages 1], None),
     Build_World scriptedClient []
       ([] ++ describeEvents "app" [None; Some "next"] false)) ∧
  length [None; Some "next"] = length [untaggedImages 2; taggedImages 1].
Proof.
  apply (getImages_all_pages "app" 2
           (Build_World scriptedClient [inl (untaggedImages 2); inl (taggedImages 1)] [])).
  - eapply Pages_next; [reflexivity|]. by apply Pages_last.
  - simpl. lia.
Defined.

(** X2.  When a call fails, [getImages] returns the error, prefixed with
    the repository name, and no image: the pages it had received are
    dropped, and no further call is made. *)
Theorem getImages_error_drops_pages {C : Client} (repoName : string) (fuel : nat)
  (w : World C) (tokens : list (option string)) (pages : list (list ImageDetail))
  (st' : State C) (err : string) :
  Pages C repoName None (registry w) tokens pages st' (Some err) →
  (length tokens ≤ fuel)%nat →
  getImages fuel repoName w
  = (Ok ([], Some ("getting " +:+ repoName +:+ " image details: " +:+ err)),
     {| registry := st'; trace := trace w ++ describeEvents repoName tokens true |}) ∧
  length tokens = S (length pages).
Proof.
  intros Hpages Hfuel. split; [|by apply Pages_tokens_pages in Hpages as [_ ?]].
  unfold getImages. destruct w as [st tr].
  by rewrite (getImages_loop_pages _ _ _ _ _ _ _ Hpages).
Qed.

Lemma getImages_error_drops_pages_witness :
  getImages 5 "app"
    (Build_World scriptedClient [inl (untaggedImages 2); inr "ServerException"] [])
  = (Ok ([], Some ("getting " +:+ "app" +:+ " image details: " +:+ "ServerException")),
     Build_World scriptedClient []
       ([] ++ describeEvents "app" [None; Some "next"] true)) ∧
  length [None; Some "next"] = S (length [untaggedImages 2]).
Proof.
  apply (getImages_error_drops_pages "app" 5
           (Build_World scriptedClient [inl (untaggedImages 2); inr "ServerException"] [])).
  - eapply Pages_next; [reflexivity|]. by apply Pages_error.
  - simpl. lia.
Defined.

Lemma getImages_loop_endless {C : Client} (repoName : string) (fuel : nat) :
  (∀ token st, ∃ st' imageDetails next,
      DescribeImages C repoName token st = (st', inl (imageDetails, Some next))) →
  ∀ token acc (w : World C),
    (getImages_loop fuel repoName token acc w).1 = Stop OutOfFuel ∧
    ∃ tokens, length tokens = fuel ∧
      trace (getImages_loop fuel repoName token acc w).2
      = trace w ++ ((λ t, describeEvent repoName t false) <$> tokens).
Proof.
  intros Hmore. induction fuel as [|fuel IH]; intros token acc w.
  - simpl. split; [done|]. exists []. by rewrite app_nil_r.
  - cbn [getImages_loop]. unfold bindM, apiDescribeImages.
    destruct (Hmore token (registry w)) as (st' & imageDetails & next & ->).
    cbn [is_err]. fold (describeEvent repoName token false).
    set (w1 := {| registry := st';
                  trace := trace w ++ [describeEvent repoName token false] |}).
    destruct (IH (Some next) (acc ++ imageDetails) w1) as (Hres & tokens & Hlen & Htr).
    split; [done|]. exists (token :: tokens). split; [simpl; lia|].
    rewrite Htr. subst w1. simpl. by rewrite <- app_assoc.
Qed.

(** X3.  [getImages] puts no bound on the number of pages: against a
    registry whose every answer carries a token it is still fetching
    after any number of calls, none of which failed. *)
Theorem getImages_unbounded {C : Client} (repoName : string) (fuel : nat) (w : World C) :
  (∀ token st, ∃ st' imageDetails next,
      DescribeImages C repoName token st = (st', inl (imageDetails, Some next))) →
  (getImages fuel repoName w).1 = Stop OutOfFuel ∧
  ∃ tokens, length tokens = fuel ∧
    trace (getImages fuel repoName w).2
    = trace w ++ ((λ t, describeEvent repoName t false) <$> tokens).
Proof. intros Hmore. by apply getImages_loop_endless. Qed.

Lemma getImages_unbounded_witness :
  (getImages 7 "app" (Build_World endlessClient () [])).1 = Stop OutOfFuel ∧
  ∃ tokens, length tokens = 7%nat ∧
    trace (getImages 7 "app" (Build_World endlessClient () [])).2
    = [] ++ ((λ t, describeEvent "app" t false) <$> tokens).
Proof.
  apply (getImages_unbounded "app" 7 (Build_World endlessClient () [])).
  intros token []. by exists (), [], "again".
Defined.

(** ** Identifiers, and the methods of [byTime] *)

(** X4.  [buildImageIdentifier] gives one identifier per image, in the
    order of the images, each carrying the digest of its image; images
    that share a digest are not merged. *)
Theorem buildImageIdentifier_pointwise (images : list ImageDetail) :
  length (buildImageIdentifier images) = length images ∧
  ∀ i, buildImageIdentifier images !! i
       = (λ x, {| Id_ImageDigest := ImageDigest x |}) <$> images !! i.
Proof.
  rewrite buildImageIdentifier_spec. unfold idsOf. split.
  - apply length_fmap.
  - intros i. apply list_lookup_fmap.
Qed.

(** X5.  On positions within the slice, [Swap] exchanges the two elements
    and nothing else, keeps the length, and undoes itself. *)
Theorem byTime_Swap_exchanges (p : list ImageDetail) (i j : nat) :
  (i < length p)%nat → (j < length p)%nat →
  Len (Swap p i j) = Len p ∧
  Swap p i j !! i = p !! j ∧
  Swap p i j !! j = p !! i ∧
  (∀ k, k ≠ i → k ≠ j → Swap p i j !! k = p !! k) ∧
  Swap (Swap p i j) i j = p.
Proof.
  intros Hi Hj.
  destruct (lookup_lt_is_Some_2 p i Hi) as [a Ha].
  destruct (lookup_lt_is_Some_2 p j Hj) as [b Hb].
  assert (Swap p i j !! i = Some b) as Hsi.
  { rewrite (byTime_Swap_lookup _ _ _ a b) by done.
    apply list_lookup_insert_eq. by rewrite length_insert. }
  assert (Swap p i j !! j = Some a) as Hsj.
  { rewrite (byTime_Swap_lookup _ _ _ a b) by done.
    destruct (decide (i = j)) as [->|Hne].
    - rewrite list_lookup_insert_eq by (by rewrite length_insert). congruence.
    - rewrite list_lookup_insert_ne by done. by apply list_lookup_insert_eq. }
  assert (∀ k, k ≠ i → k ≠ j → Swap p i j !! k = p !! k) as Hsk.
  { intros k Hki Hkj. rewrite (byTime_Swap_lookup _ _ _ a b) by done.
    by rewrite !list_lookup_insert_ne by done. }
  assert (length (Swap p i j) = length p) as Hlen.
  { rewrite (byTime_Swap_lookup _ _ _ a b) by done. by rewrite !length_insert. }
  split_and!; [done|congruence|congruence|done|].
  rewrite (byTime_Swap_lookup _ _ _ b a) by done.
  apply list_eq. intros k.
  destruct (decide (k = i)) as [->|Hki].
  - rewrite list_lookup_insert_eq by (by rewrite length_insert, Hlen). congruence.
  - rewrite list_lookup_insert_ne by done.
    destruct (decide (k = j)) as [->|Hkj].
    + rewrite list_lookup_insert_eq by (by rewrite Hlen). congruence.
    + rewrite list_lookup_insert_ne by done. by apply Hsk.
Qed.

Lemma byTime_Swap_exchanges_witness :
  Len (Swap exampleImages 0 2) = Len exampleImages ∧
  Swap exampleImages 0 2 !! 0%nat = exampleImages !! 2%nat ∧
  Swap exampleImages 0 2 !! 2%nat = exampleImages !! 0%nat ∧
  (∀ k, k ≠ 0%nat → k ≠ 2%nat → Swap exampleImages 0 2 !! k = exampleImages !! k) ∧
  Swap (Swap exampleImages 0 2) 0 2 = exampleImages.
Proof. apply (byTime_Swap_exchanges exampleImages 0 2); simpl; lia. Defined.

(** X6.  [Less] is the strict order that [sort.Sort] asks for:
    irreflexive, asymmetric, transitive, and every position within the
    slice is after the smaller or before the larger of two positions that
    [Less] separates. *)
Theorem byTime_Less_strict_weak_order (p : list ImageDetail) (i j k : nat) :
  (j < length p)%nat →
  Less p i i = false ∧
  (Less p i j = true → Less p j i = false) ∧
  (Less p i j = true → Less p j k = true → Less p i k = true) ∧
  (Less p i k = true → Less p i j = true ∨ Less p j k = true).
Proof.
  intros Hj. destruct (lookup_lt_is_Some_2 p j Hj) as [b Hb].
  cbv [Less byTime_Interface]. rewrite Hb.
  destruct (p !! i) as [a|], (p !! k) as [c|]; try done;
    rewrite ?Z.ltb_lt, ?Z.ltb_ge; split_and!; try done; try lia.
Qed.

Lemma byTime_Less_strict_weak_order_witness :
  Less tiedImages 6 6 = false ∧
  (Less tiedImages 6 1 = true → Less tiedImages 1 6 = false) ∧
  (Less tiedImages 6 1 = true → Less tiedImages 1 0 = true → Less tiedImages 6 0 = true) ∧
  (Less tiedImages 6 0 = true → Less tiedImages 6 1 = true ∨ Less tiedImages 1 0 = true).
Proof. apply (byTime_Less_strict_weak_order tiedImages 6 1 0). simpl. lia. Defined.

(** ** The tag filter on arbitrary digests *)

(** Whatever the digests, the outer loop appends to the first list exactly
    the images that have a matching tag, and to the second list only
    images that have none. *)
Lemma filterTags_images_any (R : RegexpPkg) (tagRE : string)
  (images acc wo m u : list ImageDetail) :
  filterTags_images R tagRE images acc wo = Ok (m, u) →
  m = acc ++ filter (hasMatchingTag R tagRE) images ∧
  ∃ u', u = wo ++ u' ∧
        u' `sublist_of` filter (λ x, ¬ hasMatchingTag R tagRE x) images.
Proof.
  revert acc wo. induction images as [|x rest IH]; intros acc wo; simpl.
  - intros [= <- <-]. split; [by rewrite app_nil_r|]. exists []. by rewrite app_nil_r.
  - destruct (filterTags_tags R tagRE x (ImageTags x) acc) as [acc'|] eqn:Htags;
      simpl; [|done].
    apply filterTags_tags_spec in Htags.
    fold (hasMatchingTag R tagRE x) in Htags.
    destruct (decide (hasMatchingTag R tagRE x)) as [Hyes|Hno]; subst acc'.
    + rewrite lastIsNot_snoc. intros Hrest.
      apply IH in Hrest as (-> & u' & -> & Hsub).
      rewrite filter_cons_True by done.
      rewrite filter_cons_False by tauto.
      split; [by rewrite <- app_assoc|]. by exists u'.
    + intros Hrest. apply IH in Hrest as (-> & u' & -> & Hsub).
      rewrite filter_cons_False by done.
      rewrite filter_cons_True by done.
      split; [done|].
      destruct (lastIsNot acc x).
      * exists (x :: u'). split; [by rewrite <- app_assoc|]. by apply sublist_skip.
      * exists u'. split; [done|]. by apply sublist_cons.
Qed.

Lemma filterTags_any (R : RegexpPkg) (images : list ImageDetail)
  (tagRE : string) (matched unmatched : list ImageDetail) :
  tagRE ≠ "" →
  filterTags R images tagRE = Ok (matched, unmatched) →
  matched = filter (hasMatchingTag R tagRE) images ∧
  unmatched `sublist_of` filter (λ x, ¬ hasMatchingTag R tagRE x) images.
Proof.
  intros Hne. unfold filterTags. destruct (String.eqb_spec tagRE ""); [done|].
  by intros (-> & u' & -> & Hsub)%filterTags_images_any.
Qed.

(** X7.  With a non-empty pattern and any digests, equal or not, what
    [filterTags] returns as matched is exactly the images that have a
    matching tag, in input order; what it returns as unmatched are images
    without a matching tag, in input order, though not necessarily all of
    them. *)
Theorem filterTags_any_digests (R : RegexpPkg) (images : list ImageDetail)
  (tagRE : string) (matched unmatched : list ImageDetail) :
  tagRE ≠ "" →
  filterTags R images tagRE = Ok (matched, unmatched) →
  matched = filter (hasMatchingTag R tagRE) images ∧
  unmatched `sublist_of` filter (λ x, ¬ hasMatchingTag R tagRE x) images ∧
  (∀ x, x ∈ unmatched → ¬ hasMatchingTag R tagRE x).
Proof.
  intros Hne Hf. destruct (filterTags_any R _ _ _ _ Hne Hf) as [-> Hsub].
  split_and!; [done..|].
  intros x Hx. eapply sublist_subseteq in Hx; [|exact Hsub].
  by apply list_elem_of_filter in Hx as [? _].
Qed.

Lemma filterTags_any_digests_witness :
  [image 1 ["v1"] 10]
  = filter (hasMatchingTag literalRegexp "v1") [image 1 ["v1"] 10; image 1 ["dev"] 20] ∧
  [] `sublist_of` filter (λ x, ¬ hasMatchingTag literalRegexp "v1" x)
                    [image 1 ["v1"] 10; image 1 ["dev"] 20] ∧
  (∀ x, x ∈ @nil ImageDetail → ¬ hasMatchingTag literalRegexp "v1" x).
Proof.
  apply (filterTags_any_digests literalRegexp [image 1 ["v1"] 10; image 1 ["dev"] 20] "v1").
  - done.
  - by vm_compute.
Defined.

(** ** What the list to delete holds *)

Section PlanContents.
Variable R : RegexpPkg.
Variable sort_Sort : SortFn.
Hypothesis Hsort : sortContract sort_Sort.

Lemma sorted_elem_of (candidates : list ImageDetail) x :
  x ∈ sort_Sort byTime byTime_Interface candidates ↔ x ∈ candidates.
Proof. destruct (Hsort candidates) as [Hperm _]. by rewrite Hperm. Qed.

(** The list to delete, with a pattern: the untagged images and a
    selection out of the matched or of the unmatched images. *)
Lemma deletionPlan_pattern images amountToKeep tagFilter plan :
  regExp tagFilter ≠ "" →
  deletionPlan R sort_Sort images amountToKeep tagFilter = Ok plan →
  ∀ x, x ∈ plan →
       ImageTags x = [] ∨
       (if strings.Contains (action tagFilter) "delete"
        then hasMatchingTag R (regExp tagFilter) x
        else ¬ hasMatchingTag R (regExp tagFilter) x).
Proof.
  intros Hne. rewrite deletionPlan_unfold.
  destruct (filterTags R _ (regExp tagFilter)) as [[matched unmatched]|] eqn:Hf;
    simpl; [|done].
  destruct (imagesToRemove _ amountToKeep) as [selected|] eqn:Hsel; simpl; [|done].
  intros [= <-] x [Hx|Hx]%elem_of_app.
  - left. by apply list_elem_of_filter in Hx as [? _].
  - right. apply imagesToRemove_sublist in Hsel.
    eapply sublist_subseteq in Hx; [|exact Hsel].
    apply (proj1 (sorted_elem_of _ _)) in Hx.
    destruct (filterTags_any R _ _ _ _ Hne Hf) as (-> & Hun).
    destruct (strings.Contains (action tagFilter) "delete").
    + by apply list_elem_of_filter in Hx as [? _].
    + eapply sublist_subseteq in Hx; [|exact Hun].
      by apply list_elem_of_filter in Hx as [? _].
Qed.
End PlanContents.

(** X8.  With a pattern and an action that does not contain [delete]
    (the action [save]), no image that has a tag matching the pattern is
    in the list to delete, whatever its age and the keep-count. *)
Theorem save_exempts_matching (R : RegexpPkg) (sort_Sort : SortFn)
  (images : list ImageDetail) (amountToKeep : Z) (tagFilter : TagFiltering)
  (plan : list ImageDetail) :
  sortContract sort_Sort →
  regExp tagFilter ≠ "" →
  strings.Contains (action tagFilter) "delete" = false →
  deletionPlan R sort_Sort images amountToKeep tagFilter = Ok plan →
  ∀ x, x ∈ plan → ¬ hasMatchingTag R (regExp tagFilter) x.
Proof.
  intros Hsort Hne Hact Hplan x Hx.
  destruct (deletionPlan_pattern R sort_Sort Hsort _ _ _ _ Hne Hplan x Hx) as [Hnil|Hm].
  - unfold hasMatchingTag. rewrite Hnil. by intros ?%Exists_nil.
  - by rewrite Hact in Hm.
Qed.

Lemma save_exempts_matching_witness :
  ¬ hasMatchingTag literalRegexp (regExp {| regExp := "v1"; action := "save" |})
      (image 2 ["dev"] 20).
Proof.
  apply (save_exempts_matching literalRegexp shortSort exampleImages 0
           {| regExp := "v1"; action := "save" |} [image 2 ["dev"] 20]).
  - exact shortSort_contract.
  - done.
  - done.
  - by vm_compute.
  - by left.
Defined.

(** X9.  With a pattern and an action that contains [delete], every
    tagged image in the list to delete has a tag matching the pattern:
    tagged images that do not match are never deleted. *)
Theorem delete_only_matching (R : RegexpPkg) (sort_Sort : SortFn)
  (images : list ImageDetail) (amountToKeep : Z) (tagFilter : TagFiltering)
  (plan : list ImageDetail) :
  sortContract sort_Sort →
  regExp tagFilter ≠ "" →
  strings.Contains (action tagFilter) "delete" = true →
  deletionPlan R sort_Sort images amountToKeep tagFilter = Ok plan →
  ∀ x, x ∈ plan → ImageTags x = [] ∨ hasMatchingTag R (regExp tagFilter) x.
Proof.
  intros Hsort Hne Hact Hplan x Hx.
  destruct (deletionPlan_pattern R sort_Sort Hsort _ _ _ _ Hne Hplan x Hx) as [Hnil|Hm].
  - by left.
  - right. by rewrite Hact in Hm.
Qed.

Lemma delete_only_matching_witness :
  ImageTags (image 3 ["v1.1"] 30) = [] ∨
  hasMatchingTag literalRegexp (regExp {| regExp := "v1"; action := "delete" |})
    (image 3 ["v1.1"] 30).
Proof.
  apply (delete_only_matching literalRegexp shortSort exampleImages 0
           {| regExp := "v1"; action := "delete" |}
           [image 1 ["latest"; "v1"] 10; image 3 ["v1.1"] 30]).
  - exact shortSort_contract.
  - done.
  - done.
  - by vm_compute.
  - right. by left.
Defined.

(** X10.  Without a pattern and with an action that does not contain
    [delete], the list to delete is the untagged images and nothing else:
    no tagged image is deleted, however many there are and whatever the
    keep-count. *)
Theorem save_without_pattern_untagged_only (R : RegexpPkg) (sort_Sort : SortFn)
  (images : list ImageDetail) (amountToKeep : Z) (tagFilter : TagFiltering) :
  sortContract sort_Sort →
  0 ≤ amountToKeep →
  regExp tagFilter = "" →
  strings.Contains (action tagFilter) "delete" = false →
  deletionPlan R sort_Sort images amountToKeep tagFilter = Ok (filter untagged images).
Proof.
  intros Hsort Hkeep Hre Hact. rewrite deletionPlan_unfold, Hre, Hact.
  unfold filterTags. simpl.
  destruct (Hsort []) as [Hperm%Permutation_nil_r _]. rewrite Hperm.
  rewrite imagesToRemove_nonneg by (done || by vm_compute).
  simpl. rewrite take_nil. by rewrite app_nil_r.
Qed.

Lemma save_without_pattern_untagged_only_witness :
  deletionPlan literalRegexp shortSort (untaggedImages 2 ++ taggedImages 5) 1
    {| regExp := ""; action := "save" |}
  = Ok (filter untagged (untaggedImages 2 ++ taggedImages 5)).
Proof.
  apply (save_without_pattern_untagged_only literalRegexp shortSort).
  - exact shortSort_contract.
  - lia.
  - done.
  - done.
Defined.



(** ** The retention selector and the keep-count *)

(** X12.  Raising the keep-count never selects more: the selection for
    the larger keep-count is a prefix of the selection for the smaller
    one, and the keep-count 0 selects every candidate. *)
Theorem imagesToRemove_monotone (images : list ImageDetail) (k1 k2 : Z) :
  0 ≤ k1 ≤ k2 → len images ≤ GoInt.max_int →
  ∃ s1 s2,
    imagesToRemove images k1 = Ok s1 ∧
    imagesToRemove images k2 = Ok s2 ∧
    s2 `prefix_of` s1 ∧
    (k1 = 0 → s1 = images).
Proof.
  intros [H1 H2] Hlen. rewrite !imagesToRemove_nonneg by lia.
  eexists _, _. split_and!; [done..| |].
  - replace (take (Z.to_nat (len images - k2)) images)
      with (take (Z.to_nat (len images - k2)) (take (Z.to_nat (len images - k1)) images)).
    + apply prefix_take.
    + rewrite take_take. f_equal. lia.
  - intros ->. apply take_ge. unfold len. lia.
Qed.

Lemma imagesToRemove_monotone_witness :
  ∃ s1 s2,
    imagesToRemove exampleImages 0 = Ok s1 ∧
    imagesToRemove exampleImages 2 = Ok s2 ∧
    s2 `prefix_of` s1 ∧
    (0 = 0 → s1 = exampleImages).
Proof. apply (imagesToRemove_monotone exampleImages 0 2); [lia|by vm_compute]. Defined.

(** ** The delete calls of [cleanupImages] *)

Lemma batches_elem_of plan chunk x :
  chunk ∈ batches plan → x ∈ chunk → x ∈ plan.
Proof.
  intros Hc Hx. destruct (batches_shape plan) as [Hcat _].
  rewrite <- Hcat. apply list_elem_of_In, in_concat.
  exists chunk. split; by apply list_elem_of_In.
Qed.

Lemma concat_idsOf (chunks : list (list ImageDetail)) :
  concat (idsOf <$> chunks) = idsOf (concat chunks).
Proof.
  induction chunks as [|c cs IH]; [done|].
  rewrite fmap_cons. cbn [concat]. rewrite IH. unfold idsOf. by rewrite fmap_app.
Qed.

Section DeleteCalls.
Context {C : Client}.
Variable repoName : string.
Implicit Types w : World C.



(** The events that [cleanupImages] adds once its list is built. *)
Lemma submitPlan_events plan dryRun w :
  ∃ evs,
    trace (submitPlan repoName plan dryRun w).2 = trace w ++ evs ∧
    (∃ r, (submitPlan repoName plan dryRun w).1 = Ok r) ∧
    Forall (λ e, ∃ chunk, chunk ∈ batches plan ∧
                          call e = CallBatchDeleteImage repoName (idsOf chunk)) evs ∧
    ((submitPlan repoName plan dryRun w).1 = Ok None → dryRun = false →
     evs = (λ c, deleteEvent repoName c false) <$>
             (if decide (plan = []) then [] else batches plan)).
Proof.
  destruct (decide (dryRun = true ∨ plan = [])) as [Hskip|Hrun].
  - exists []. assert (submitPlan repoName plan dryRun w = (Ok None, w)) as ->.
    { unfold submitPlan. destruct Hskip as [->| ->]; [done|]. by destruct dryRun. }
    simpl. rewrite app_nil_r. split_and!; [done|eauto|done|].
    intros _ ->. destruct Hskip as [?| ->]; [done|]. by rewrite decide_True.
  - assert (dryRun = false) as -> by (destruct dryRun; tauto).
    assert (plan ≠ []) as Hne by tauto.
    destruct (submitPlan_spec repoName plan w Hne)
      as (dc & lc & rest & Hb & Hall & Ht & _ & Hfail & Hok & Hiff).
    eexists. split; [exact Ht|]. split_and!.
    + destruct (failsAfter C repoName dc lc (registry w)).
      * destruct Hfail as [msg ->]; eauto.
      * destruct Hok as [-> _]; eauto.
    + apply Forall_app. split.
      * apply Forall_fmap, Forall_forall. intros c Hc. exists c. split; [|done].
        rewrite Hb. apply elem_of_app. by left.
      * apply Forall_singleton. exists lc. split; [|done].
        rewrite Hb. apply elem_of_app. right. by left.
    + intros Hres _. rewrite decide_False by done.
      apply Hiff in Hres. rewrite Hb in Hres.
      apply allSucceed_app in Hres as [_ [Hl _]].
      unfold failsAfter in *. rewrite Hl in *.
      rewrite bool_decide_eq_false_2 in * by apply is_Some_None.
      destruct Hok as [_ ->]; [done|]. by rewrite Hb, fmap_app.
Qed.
End DeleteCalls.



(** X14.  Every call that [cleanupImages] makes is a delete call for the
    repository it was given, carries at most 100 identifiers, and carries
    only digests of images in its list to delete. *)
Theorem cleanupImages_calls_bounded {C : Client} (R : RegexpPkg) (sort_Sort : SortFn)
  (repoName : string) (images : list ImageDetail) (dryRun : bool) (amountToKeep : Z)
  (tagFilter : TagFiltering) (plan : list ImageDetail) (w : World C) :
  deletionPlan R sort_Sort images amountToKeep tagFilter = Ok plan →
  ∃ evs,
    trace (cleanupImages R sort_Sort repoName images dryRun amountToKeep tagFilter w).2
    = trace w ++ evs ∧
    Forall (λ e, ∃ ids, call e = CallBatchDeleteImage repoName ids ∧
                        (length ids ≤ 100)%nat ∧
                        ∀ id, id ∈ ids → id ∈ idsOf plan) evs.
Proof.
  intros Hplan. rewrite (cleanupImages_plan _ _ _ _ _ _ _ _ _ Hplan).
  destruct (submitPlan_events repoName plan dryRun w) as (evs & Ht & _ & Hall & _).
  exists evs. split; [done|].
  eapply Forall_impl; [exact Hall|]. intros e (chunk & Hc & Hcall).
  exists (idsOf chunk). split_and!; [done| |].
  - destruct (batches_shape plan) as (_ & _ & Hle & _).
    unfold idsOf. rewrite length_fmap.
    by eapply Forall_forall in Hle.
  - unfold idsOf. intros id (x & -> & Hx)%list_elem_of_fmap.
    apply list_elem_of_fmap. exists x. split; [done|]. by eapply batches_elem_of.
Qed.

Lemma cleanupImages_calls_bounded_witness :
  ∃ evs,
    trace (cleanupImages literalRegexp shortSort "app" (untaggedImages 250) false 100
             noFilter (startWorld (registryOf (untaggedImages 250) None))).2
    = trace (startWorld (registryOf (untaggedImages 250) None)) ++ evs ∧
    Forall (λ e, ∃ ids, call e = CallBatchDeleteImage "app" ids ∧
                        (length ids ≤ 100)%nat ∧
                        ∀ id, id ∈ ids → id ∈ idsOf (untaggedImages 250)) evs.
Proof.
  apply (cleanupImages_calls_bounded literalRegexp shortSort "app" (untaggedImages 250)
           false 100 noFilter (untaggedImages 250)).
  by vm_compute.
Defined.

(** X15.  When [cleanupImages] returns [nil] on a run that is not a dry
    run, its calls, all answered without error, carried the digests of
    the list to delete, each image once and in the order of the list. *)
Theorem cleanupImages_success_sends_all {C : Client} (R : RegexpPkg) (sort_Sort : SortFn)
  (repoName : string) (images : list ImageDetail) (amountToKeep : Z)
  (tagFilter : TagFiltering) (plan : list ImageDetail) (w : World C) :
  deletionPlan R sort_Sort images amountToKeep tagFilter = Ok plan →
  (cleanupImages R sort_Sort repoName images false amountToKeep tagFilter w).1 = Ok None →
  ∃ evs,
    trace (cleanupImages R sort_Sort repoName images false amountToKeep tagFilter w).2
    = trace w ++ evs ∧
    Forall (λ e, failed e = false) evs ∧
    concat (callIds <$> evs) = idsOf plan.
Proof.
  intros Hplan. rewrite (cleanupImages_plan _ _ _ _ _ _ _ _ _ Hplan). intros Hres.
  destruct (submitPlan_events repoName plan false w) as (evs & Ht & _ & _ & Hevs).
  exists evs. split; [done|]. rewrite (Hevs Hres eq_refl). split.
  - by apply Forall_fmap, Forall_forall.
  - rewrite <- list_fmap_compose.
    change (callIds ∘ (λ c, deleteEvent repoName c false)) with idsOf.
    rewrite concat_idsOf. destruct (decide (plan = [])) as [->|_]; [done|].
    by destruct (batches_shape plan) as [-> _].
Qed.

Lemma cleanupImages_success_sends_all_witness :
  ∃ evs,
    trace (cleanupImages literalRegexp shortSort "app" (untaggedImages 250) false 100
             noFilter (startWorld (registryOf (untaggedImages 250) None))).2
    = trace (startWorld (registryOf (untaggedImages 250) None)) ++ evs ∧
    Forall (λ e, failed e = false) evs ∧
    concat (callIds <$> evs) = idsOf (untaggedImages 250).
Proof.
  apply (cleanupImages_success_sends_all literalRegexp shortSort "app"
           (untaggedImages 250) 100 noFilter (untaggedImages 250)).
  - by vm_compute.
  - by vm_compute.
Defined.



(** ** [filterTags] and a pattern that does not compile *)

Lemma filterTags_images_bad_pattern (R : RegexpPkg) (tagRE err : string)
  (images wo : list ImageDetail) :
  Compile R tagRE = inr err →
  filterTags_images R tagRE images [] wo
  = if decide (Forall untagged images) then Ok ([], wo ++ images)
    else Stop (LogFatal err).
Proof.
  intros Hc. revert wo. induction images as [|x rest IH]; intros wo.
  - simpl. by rewrite app_nil_r.
  - cbn [filterTags_images]. destruct (ImageTags x) as [|tag tags] eqn:Htags.
    + cbn [filterTags_tags res_bind]. change (lastIsNot [] x) with true. cbv iota.
      rewrite IH. destruct (decide (Forall untagged rest)) as [Hall|Hall].
      * rewrite decide_True by (by constructor). by rewrite <- app_assoc.
      * rewrite decide_False; [done|]. by intros [_ ?]%Forall_cons.
    + cbn [filterTags_tags]. unfold MatchString. rewrite Hc. simpl.
      rewrite decide_False; [done|].
      intros [Hx _]%Forall_cons. unfold untagged in Hx. congruence.
Qed.

(** X17.  With a non-empty pattern that does not compile, [filterTags]
    ends the process with the compile error as soon as it meets a tag; it
    returns, with every image as unmatched, only when no image has a
    tag. *)
Theorem filterTags_bad_pattern (R : RegexpPkg) (images : list ImageDetail)
  (tagRE err : string) :
  tagRE ≠ "" → Compile R tagRE = inr err →
  filterTags R images tagRE
  = if decide (Forall untagged images) then Ok ([], images) else Stop (LogFatal err).
Proof.
  intros Hne Hc. unfold filterTags. destruct (String.eqb_spec tagRE ""); [done|].
  by rewrite (filterTags_images_bad_pattern R tagRE err).
Qed.

Lemma filterTags_bad_pattern_witness :
  filterTags literalRegexp exampleImages "v(1"
  = if decide (Forall untagged exampleImages) then Ok ([], exampleImages)
    else Stop (LogFatal "error parsing regexp").
Proof. by apply (filterTags_bad_pattern literalRegexp exampleImages "v(1"). Defined.

(** ** [main] over several repositories *)

(** X18.  The repositories are processed one after the other: the run
    over a list followed by a second list is the run over the first list
    and then, if that run returned, the run over the second from the world
    it left.  If the run over the first list ended the process, nothing
    is done for the second. *)
Theorem main_repos_app {C : Client} (R : RegexpPkg) (sort_Sort : SortFn) (fuel : nat)
  (repos1 repos2 : list string) (dryRun : bool) (amountToKeep : Z)
  (tagFilter : TagFiltering) (w : World C) :
  main_repos R sort_Sort fuel (repos1 ++ repos2) dryRun amountToKeep tagFilter w
  = match main_repos R sort_Sort fuel repos1 dryRun amountToKeep tagFilter w with
    | (Ok _, w') => main_repos R sort_Sort fuel repos2 dryRun amountToKeep tagFilter w'
    | (Stop why, w') => (Stop why, w')
    end.
Proof.
  revert w. induction repos1 as [|repoName rest IH]; intros w; [done|].
  cbn [app main_repos]. unfold bindM.
  destruct (getImages fuel repoName w) as [[[imgs [e|]]|why] w1]; [done| |done].
  destruct (cleanupImages R sort_Sort repoName imgs dryRun amountToKeep tagFilter w1)
    as [[[e|]|why] w2]; [done| |done].
  apply IH.
Qed.

(** X19.  A failure while the images of a repository are fetched ends the
    process with status 1; no delete call is made for that repository and
    nothing at all is done for the repositories after it. *)
Theorem main_repos_fetch_failure {C : Client} (R : RegexpPkg) (sort_Sort : SortFn)
  (fuel : nat) (repoName : string) (rest : list string) (dryRun : bool)
  (amountToKeep : Z) (tagFilter : TagFiltering) (w : World C)
  (tokens : list (option string)) (pages : list (list ImageDetail)) (st' : State C)
  (err : string) :
  Pages C repoName None (registry w) tokens pages st' (Some err) →
  (length tokens ≤ fuel)%nat →
  main_repos R sort_Sort fuel (repoName :: rest) dryRun amountToKeep tagFilter w
  = (Stop (LogFatal ("Could not retrieve images for repo " +:+ repoName +:+ ": "
                     +:+ ("getting " +:+ repoName +:+ " image details: " +:+ err))),
     {| registry := st'; trace := trace w ++ describeEvents repoName tokens true |}) ∧
  exitStatus
    (main_repos R sort_Sort fuel (repoName :: rest) dryRun amountToKeep tagFilter w).1
  = Some 1.
Proof.
  intros Hpages Hfuel.
  assert (main_repos R sort_Sort fuel (repoName :: rest) dryRun amountToKeep tagFilter w
          = (Stop (LogFatal ("Could not retrieve images for repo " +:+ repoName +:+ ": "
                     +:+ ("getting " +:+ repoName +:+ " image details: " +:+ err))),
             {| registry := st';
                trace := trace w ++ describeEvents repoName tokens true |})) as ->; [|done].
  cbn [main_repos]. unfold bindM, getImages. destruct w as [st tr].
  by rewrite (getImages_loop_pages _ _ _ _ _ _ _ Hpages).
Qed.

Lemma main_repos_fetch_failure_witness :
  main_repos literalRegexp shortSort 5 ["app"; "web"] false 100 noFilter
    (Build_World scriptedClient [inl (untaggedImages 2); inr "ServerException"] [])
  = (Stop (LogFatal ("Could not retrieve images for repo " +:+ "app" +:+ ": "
                     +:+ ("getting " +:+ "app" +:+ " image details: " +:+ "ServerException"))),
     Build_World scriptedClient [] ([] ++ describeEvents "app" [None; Some "next"] true)) ∧
  exitStatus
    (main_repos literalRegexp shortSort 5 ["app"; "web"] false 100 noFilter
       (Build_World scriptedClient [inl (untaggedImages 2); inr "ServerException"] [])).1
  = Some 1.
Proof.
  eapply (main_repos_fetch_failure literalRegexp shortSort 5 "app" ["web"] false 100
            noFilter
            (Build_World scriptedClient [inl (untaggedImages 2); inr "ServerException"] [])).
  - eapply Pages_next; [reflexivity|]. by apply Pages_error.
  - simpl. lia.
Defined.

(** ** A dry run of [main] *)

Section DryRun.
Context {C : Client}.
Variable R : RegexpPkg.
Variable sort_Sort : SortFn.
Implicit Types w : World C.

Lemma getImages_loop_no_delete fuel repoName :
  ∀ token acc w, ∃ evs,
    trace (getImages_loop fuel repoName token acc w).2 = trace w ++ evs ∧
    Forall (λ e, is_delete e = false) evs.
Proof.
  induction fuel as [|fuel IH]; intros token acc w.
  - exists []. by rewrite app_nil_r.
  - cbn [getImages_loop]. unfold bindM, apiDescribeImages.
    destruct (DescribeImages C repoName token (registry w)) as [st [[imgs [t|]]|err]];
      cbn [is_err].
    + destruct (IH (Some t) (acc ++ imgs)
                  {| registry := st;
                     trace := trace w ++ [{| call := CallDescribeImages repoName token;
                                             failed := false |}] |})
        as (evs & -> & Hall).
      eexists (_ :: evs). simpl. rewrite <- app_assoc. split; [done|].
      by constructor.
    + eexists [_]. split; [done|]. by repeat constructor.
    + eexists [_]. split; [done|]. by repeat constructor.
Qed.

Lemma cleanupImages_dry_world repoName images amountToKeep tagFilter w :
  (cleanupImages R sort_Sort repoName images true amountToKeep tagFilter w).2 = w.
Proof.
  unfold cleanupImages, bindM, liftRes.
  by destruct (deletionPlan R sort_Sort images amountToKeep tagFilter).
Qed.

Lemma main_repos_dry fuel repos amountToKeep tagFilter :
  ∀ w, ∃ evs,
    trace (main_repos R sort_Sort fuel repos true amountToKeep tagFilter w).2
    = trace w ++ evs ∧
    Forall (λ e, is_delete e = false) evs.
Proof.
  induction repos as [|repoName rest IH]; intros w.
  - exists []. by rewrite app_nil_r.
  - cbn [main_repos]. unfold bindM, getImages.
    destruct (getImages_loop_no_delete fuel repoName None [] w) as (evs & Ht & Hall).
    destruct (getImages_loop fuel repoName None [] w) as [[[imgs [e|]]|why] w1];
      simpl in Ht; [by exists evs| |by exists evs].
    pose proof (cleanupImages_dry_world repoName imgs amountToKeep tagFilter w1) as Hw.
    destruct (cleanupImages R sort_Sort repoName imgs true amountToKeep tagFilter w1)
      as [[[e|]|why] w2]; simpl in Hw; subst w2; [by exists evs| |by exists evs].
    destruct (IH w1) as (evs' & -> & Hall'). exists (evs ++ evs').
    rewrite Ht, <- app_assoc. split; [done|]. by apply Forall_app.
Qed.
End DryRun.

(** X20.  With [--dry-run], [main] makes no delete call: whatever the
    other flags, the registry and the number of repositories, every call
    it adds to the trace is a [DescribeRepositories] or a
    [DescribeImages]. *)
Theorem main_dry_run_no_delete {C : Client} (R : RegexpPkg) (sort_Sort : SortFn)
  (fuel : nat) (flags : Flags) (w : World C) :
  dry_run flags = true →
  ∃ evs,
    trace (main R sort_Sort fuel flags w).2 = trace w ++ evs ∧
    Forall (λ e, is_delete e = false) evs.
Proof.
  intros Hdry. unfold main. rewrite Hdry.
  destruct (Compile R (tag_regexp flags)) as [re|err];
    [|exists []; by rewrite app_nil_r].
  destruct (negb _); [exists []; by rewrite app_nil_r|].
  unfold bindM at 1.
  destruct (String.eqb (repo flags) "").
  - unfold getAllRepoNames, bindM, apiDescribeRepositories.
    destruct (DescribeRepositories C (registry w)) as [st [repos|err]]; cbn [is_err].
    + simpl.
      destruct (main_repos_dry R sort_Sort fuel repos (keep flags)
                  {| regExp := tag_regexp flags;
                     action := strings.ToLower (post_filter_action flags) |}
                  {| registry := st;
                     trace := trace w ++ [{| call := CallDescribeRepositories;
                                             failed := false |}] |})
        as (evs & -> & Hall).
      eexists (_ :: evs). simpl. rewrite <- app_assoc. split; [done|]. by constructor.
    + simpl. eexists [_]. split; [done|]. by repeat constructor.
  - unfold retM. apply main_repos_dry.
Qed.

Lemma main_dry_run_no_delete_witness :
  ∃ evs,
    trace (main literalRegexp shortSort 1
             {| keep := 0; aws_region := "eu-central-1"; repo := ""; dry_run := true;
                tag_regexp := ""; post_filter_action := "delete" |}
             (startWorld (registryOf exampleImages None))).2
    = trace (startWorld (registryOf exampleImages None)) ++ evs ∧
    Forall (λ e, is_delete e = false) evs.
Proof.
  by apply (main_dry_run_no_delete literalRegexp shortSort 1
              {| keep := 0; aws_region := "eu-central-1"; repo := ""; dry_run := true;
                 tag_regexp := ""; post_filter_action := "delete" |}
              (startWorld (registryOf exampleImages None))).
Defined.

(** ** [main] without [--repo] *)

(** X21.  Without [--repo], [main] lists the repositories with a single
    call and processes the names of that one answer, in its order; when
    the listing fails the process ends with status 1 after that call. *)
Theorem main_all_repositories {C : Client} (R : RegexpPkg) (sort_Sort : SortFn)
  (fuel : nat) (flags : Flags) (w : World C) (re : Regexp R) :
  Compile R (tag_regexp flags) = inl re →
  strings.Contains "deletesave" (strings.ToLower (post_filter_action flags)) = true →
  repo flags = "" →
  (∀ st repos,
     DescribeRepositories C (registry w) = (st, inl repos) →
     main R sort_Sort fuel flags w
     = main_repos R sort_Sort fuel repos (dry_run flags) (keep flags) (tagFilterOf flags)
         {| registry := st;
            trace := trace w ++ [{| call := CallDescribeRepositories; failed := false |}] |}) ∧
  (∀ st err,
     DescribeRepositories C (registry w) = (st, inr err) →
     main R sort_Sort fuel flags w
     = (Stop (LogFatal ("getting ecr repos: " +:+ err)),
        {| registry := st;
           trace := trace w ++ [{| call := CallDescribeRepositories; failed := true |}] |}) ∧
     exitStatus (main R sort_Sort fuel flags w).1 = Some 1).
Proof.
  intros Hc Ha Hrepo.
  assert (main R sort_Sort fuel flags w
          = bindM (r <- getAllRepoNames ;;
                   match r with
                   | (_, Some err) => stopM (LogFatal err)
                   | (repos, None) => retM repos
                   end)
              (λ repos, main_repos R sort_Sort fuel repos (dry_run flags) (keep flags)
                          (tagFilterOf flags)) w) as ->.
  { unfold main. rewrite Hc. cbn [action]. rewrite Ha, Hrepo. done. }
  unfold getAllRepoNames, bindM, apiDescribeRepositories. split.
  - by intros st repos ->.
  - by intros st err ->.
Qed.

Lemma main_all_repositories_witness :
  (∀ st repos,
     DescribeRepositories memoryClient
       (registry (startWorld (registryOf exampleImages None))) = (st, inl repos) →
     main literalRegexp shortSort 1
       {| keep := 1; aws_region := "eu-central-1"; repo := ""; dry_run := false;
          tag_regexp := ""; post_filter_action := "delete" |}
       (startWorld (registryOf exampleImages None))
     = main_repos literalRegexp shortSort 1 repos false 1 noFilter
         {| registry := st;
            trace := [] ++ [{| call := CallDescribeRepositories; failed := false |}] |}) ∧
  (∀ st err,
     DescribeRepositories memoryClient
       (registry (startWorld (registryOf exampleImages None))) = (st, inr err) →
     main literalRegexp shortSort 1
       {| keep := 1; aws_region := "eu-central-1"; repo := ""; dry_run := false;
          tag_regexp := ""; post_filter_action := "delete" |}
       (startWorld (registryOf exampleImages None))
     = (Stop (LogFatal ("getting ecr repos: " +:+ err)),
        {| registry := st;
           trace := [] ++ [{| call := CallDescribeRepositories; failed := true |}] |}) ∧
     exitStatus
       (main literalRegexp shortSort 1
          {| keep := 1; aws_region := "eu-central-1"; repo := ""; dry_run := false;
             tag_regexp := ""; post_filter_action := "delete" |}
          (startWorld (registryOf exampleImages None))).1 = Some 1).
Proof.
  by apply (main_all_repositories (C:=memoryClient) literalRegexp shortSort 1
              {| keep := 1; aws_region := "eu-central-1"; repo := ""; dry_run := false;
                 tag_regexp := ""; post_filter_action := "delete" |}
              (startWorld (registryOf exampleImages None)) "").
Defined.

(** ** The number of delete calls *)

Lemma callSize_deleteEvent repoName chunk fails :
  callSize (deleteEvent repoName chunk fails) = length chunk.
Proof. unfold callSize, deleteEvent, idsOf. cbn [call]. apply length_fmap. Qed.

(** X22.  When [cleanupImages] deletes a non-empty list without error it
    makes one call more than [len/100]: each of the first [len/100] calls
    carries 100 identifiers and the last call carries the [len mod 100]
    that remain, none when the length is a multiple of 100. *)
Theorem cleanupImages_call_count {C : Client} (R : RegexpPkg) (sort_Sort : SortFn)
  (repoName : string) (images : list ImageDetail) (amountToKeep : Z)
  (tagFilter : TagFiltering) (plan : list ImageDetail) (w : World C) :
  deletionPlan R sort_Sort images amountToKeep tagFilter = Ok plan →
  plan ≠ [] →
  (cleanupImages R sort_Sort repoName images false amountToKeep tagFilter w).1 = Ok None →
  ∃ evs,
    trace (cleanupImages R sort_Sort repoName images false amountToKeep tagFilter w).2
    = trace w ++ evs ∧
    length evs = S (length plan / 100) ∧
    Forall (λ e, callSize e = 100%nat) (take (length plan / 100) evs) ∧
    callSize <$> last evs = Some (length plan `mod` 100)%nat.
Proof.
  intros Hplan Hne. rewrite (cleanupImages_plan _ _ _ _ _ _ _ _ _ Hplan). intros Hres.
  destruct (submitPlan_events repoName plan false w) as (evs & Ht & _ & _ & Hevs).
  exists evs. split; [done|]. rewrite (Hevs Hres eq_refl), decide_False by done.
  pose proof (Nat.div_mod_eq (length plan) 100) as Hdm.
  destruct (fullChunks_concat (length plan / 100) plan) as [_ Hfull]; [lia|].
  unfold batches. rewrite fmap_app. split_and!.
  - rewrite length_app, length_fmap, fullChunks_length. simpl. lia.
  - rewrite take_app_length' by (by rewrite length_fmap, fullChunks_length).
    apply Forall_fmap. eapply Forall_impl; [exact Hfull|].
    intros c Hc. cbn [compose]. by rewrite callSize_deleteEvent.
  - rewrite <- fmap_app, fmap_last, last_snoc. cbn [fmap option_fmap option_map].
    rewrite callSize_deleteEvent, length_drop. f_equal. lia.
Qed.

Lemma cleanupImages_call_count_witness :
  ∃ evs,
    trace (cleanupImages literalRegexp shortSort "app" (untaggedImages 200) false 100
             noFilter (startWorld (registryOf (untaggedImages 200) None))).2
    = trace (startWorld (registryOf (untaggedImages 200) None)) ++ evs ∧
    length evs = S (length (untaggedImages 200) / 100) ∧
    Forall (λ e, callSize e = 100%nat) (take (length (untaggedImages 200) / 100) evs) ∧
    callSize <$> last evs = Some (length (untaggedImages 200) `mod` 100)%nat.
Proof.
  apply (cleanupImages_call_count literalRegexp shortSort "app" (untaggedImages 200) 100
           noFilter (untaggedImages 200)).
  - by vm_compute.
  - done.
  - by vm_compute.
Defined.
